(** * EventEmitter: a shallow embedding of [src/dist/EventEmitter.js]

    The class keeps three pieces of state: [allEvents] (a [Set] of
    handlers notified of every event), [events] and [onceCallbacks] (plain
    objects used as dictionaries from event names to [Set]s of handlers).

    Modelling choices, all taken from the JavaScript the file is written in:

    - a handler is a function value compared by reference; it is modelled
      by its identity (a number).  Handler bodies are supplied by callers
      and are opaque here: invoking one is recorded in a log, returns
      normally and does not call back into the emitter;
    - a [Set] iterates in insertion order, so it is a duplicate-free list;
    - [events] and [onceCallbacks] are created by the object literal [{}]:
      a read [obj[k]] finds the own property [k] or else the member of
      [Object.prototype] of that name, which is a truthy value that is not
      a [Set];
    - a method either executes [return this] or is left by the [TypeError]
      of calling a missing method on such a value.

    Statements about an arbitrary state assume it well formed ([wf]):
    every [Set] duplicate-free and both dictionaries as the methods build
    them, which holds of a new emitter and is kept by every call
    ([wf_run]). *)

From Stdlib Require Import Ascii String.
From stdpp Require Import base decidable list strings gmap.

Open Scope string_scope.

(** ** Values *)

(** Identity of a function value. *)
Abbreviation Handler := nat (only parsing).

(** The entries of a JavaScript [Set] of handlers, in insertion order. *)
Abbreviation JsSet := (list nat) (only parsing).

Module JsSet.

(** [new Set()] *)
Definition empty : JsSet := [].

(** [s.add(cb)]: appends unless already present *)
Definition add (cb : Handler) (s : JsSet) : JsSet :=
  if decide (cb ∈ s) then s else s ++ [cb].

(** [s.delete(cb)] *)
Definition delete (cb : Handler) (s : JsSet) : JsSet :=
  filter (λ x, x ≠ cb) s.

(** [s.has(cb)] *)
Definition has (cb : Handler) (s : JsSet) : bool :=
  bool_decide (cb ∈ s).

End JsSet.

(** What a property of [events] or [onceCallbacks] can hold: a [Set] of
    handlers, or some other object (a function inherited from
    [Object.prototype], or that prototype itself).  Both are truthy. *)
Inductive JsVal :=
  | VSet (s : JsSet)
  | VObj.

(** Own properties of an object created by [{}]. *)
Abbreviation JsObject := (gmap string JsVal) (only parsing).

Module JsObject.

(** Property names found on [Object.prototype]. *)
Definition prototypeKeys : list string :=
  [ "constructor"; "hasOwnProperty"; "isPrototypeOf";
    "propertyIsEnumerable"; "toLocaleString"; "toString"; "valueOf";
    "__defineGetter__"; "__defineSetter__"; "__lookupGetter__";
    "__lookupSetter__"; "__proto__" ].

Definition inherited (k : string) : bool :=
  bool_decide (k ∈ prototypeKeys).

(** [obj[k]]; [None] is [undefined].  An own property shadows the
    prototype. *)
Definition get (obj : JsObject) (k : string) : option JsVal :=
  match obj !! k with
  | Some v => Some v
  | None => if inherited k then Some VObj else None
  end.

(** [obj[k] = v].  For [k = "__proto__"] the assignment goes to the
    accessor of [Object.prototype] and stores [v] in the prototype slot
    of [obj]; the entry under that key stands for the slot, and is read
    back by [get] as the accessor reads it. *)
Definition put (obj : JsObject) (k : string) (v : JsVal) : JsObject :=
  <[k := v]> obj.

(** The prototype of [obj] is still [Object.prototype].  Once a [Set]
    has been stored in the prototype slot, reads of absent keys would
    also find the members of [Set.prototype]; [get] is exact on plain
    objects. *)
Definition plain (obj : JsObject) : Prop :=
  ∀ s, obj !! "__proto__" ≠ Some (VSet s).

(** Every stored [Set] is duplicate-free. *)
Definition setsNoDup (obj : JsObject) : Prop :=
  ∀ k s, obj !! k = Some (VSet s) → NoDup s.

(** A value that is not a [Set] is only ever stored under the name it
    was inherited under. *)
Definition objsInherited (obj : JsObject) : Prop :=
  ∀ k, obj !! k = Some VObj → inherited k = true.

(** The dictionaries the methods of the class build from [{}]. *)
Definition wf (obj : JsObject) : Prop :=
  setsNoDup obj ∧ plain obj ∧ objsInherited obj.

End JsObject.

(** ** The class *)

Record EventEmitter := mkEventEmitter {
  allEvents : JsSet;
  events : JsObject;
  onceCallbacks : JsObject;
  eventsPrefix : string;
  autoPrefix : bool
}.

Definition with_allEvents (this : EventEmitter) (s : JsSet) : EventEmitter :=
  mkEventEmitter s (events this) (onceCallbacks this)
                 (eventsPrefix this) (autoPrefix this).

Definition with_events (this : EventEmitter) (o : JsObject) : EventEmitter :=
  mkEventEmitter (allEvents this) o (onceCallbacks this)
                 (eventsPrefix this) (autoPrefix this).

Definition with_onceCallbacks (this : EventEmitter) (o : JsObject)
  : EventEmitter :=
  mkEventEmitter (allEvents this) (events this) o
                 (eventsPrefix this) (autoPrefix this).

(** [constructor(eventsPrefix = '', autoPrefix = false)] *)
Definition constructor (eventsPrefix : string) (autoPrefix : bool)
  : EventEmitter :=
  mkEventEmitter JsSet.empty ∅ ∅ eventsPrefix autoPrefix.

(** [new EventEmitter()] *)
Definition newEventEmitter : EventEmitter :=
  constructor EmptyString false.

(** How a method call ends: [return this], with the object in the given
    state, or an uncaught [TypeError], the object left as it was when the
    error was raised. *)
Inductive Outcome :=
  | ReturnThis (this : EventEmitter)
  | ThrowTypeError (this : EventEmitter).

Definition state (o : Outcome) : EventEmitter :=
  match o with ReturnThis this | ThrowTypeError this => this end.

Definition returns (o : Outcome) : bool :=
  match o with ReturnThis _ => true | ThrowTypeError _ => false end.

(** A string is truthy when it is not empty. *)
Definition truthy (s : string) : bool :=
  match s with EmptyString => false | String _ _ => true end.

(** [getEventName(type, usePrefix = this.autoPrefix)] *)
Definition getEventName (this : EventEmitter) (type : string)
    (usePrefix : option bool) : string :=
  let usePrefix := default (autoPrefix this) usePrefix in
  if truthy (eventsPrefix this) && usePrefix
  then eventsPrefix this ++ ":" ++ type
  else type.

(** [obj[_type] = obj[_type] || new Set(); obj[_type].add(callback)], the
    two statements [on] runs on [events] and [once] runs on both objects.
    The result is the object after the statements and whether the second
    one could call [add]. *)
Definition addTo (obj : JsObject) (_type : string) (callback : Handler)
  : JsObject * bool :=
  let v := default (VSet JsSet.empty) (JsObject.get obj _type) in
  match v with
  | VSet s => (JsObject.put obj _type (VSet (JsSet.add callback s)), true)
  | VObj => (JsObject.put obj _type VObj, false)
  end.

(** [on(type, callback)] *)
Definition on (this : EventEmitter) (type : string) (callback : Handler)
  : Outcome :=
  let _type := getEventName this type None in
  match addTo (events this) _type callback with
  | (o, true) => ReturnThis (with_events this o)
  | (o, false) => ThrowTypeError (with_events this o)
  end.

(** [off(type, callback)] *)
Definition off (this : EventEmitter) (type : string) (callback : Handler)
  : Outcome :=
  let _type := getEventName this type None in
  match JsObject.get (events this) _type with
  | None => ReturnThis this
  | Some (VSet s) =>
      ReturnThis
        (with_events this
           (JsObject.put (events this) _type (VSet (JsSet.delete callback s))))
  | Some VObj => ThrowTypeError this
  end.

(** [one(type, callback)] *)
Definition one (this : EventEmitter) (type : string) (callback : Handler)
  : Outcome :=
  let _type := getEventName this type None in
  ReturnThis
    (with_events this (JsObject.put (events this) _type (VSet [callback]))).

(** [once(type, callback)] *)
Definition once (this : EventEmitter) (type : string) (callback : Handler)
  : Outcome :=
  let _type := getEventName this type None in
  match addTo (events this) _type callback with
  | (o, false) => ThrowTypeError (with_events this o)
  | (o, true) =>
      let this := with_events this o in
      match addTo (onceCallbacks this) _type callback with
      | (m, true) => ReturnThis (with_onceCallbacks this m)
      | (m, false) => ThrowTypeError (with_onceCallbacks this m)
      end
  end.

(** [onAll(callback)] *)
Definition onAll (this : EventEmitter) (callback : Handler) : Outcome :=
  ReturnThis (with_allEvents this (JsSet.add callback (allEvents this))).

(** [offAll(callback)] *)
Definition offAll (this : EventEmitter) (callback : Handler) : Outcome :=
  ReturnThis (with_allEvents this (JsSet.delete callback (allEvents this))).

(** ** Emission *)

Section Emit.

(** The type of the data attached to an event ([arg], any value). *)
Context {Payload : Type}.

(** A handler invocation with the arguments it receives. *)
Inductive Call :=
  | Universal (callback : Handler) (type : string) (arg : Payload)
  | Named (callback : Handler) (arg : Payload).

Definition callee (c : Call) : Handler :=
  match c with Universal cb _ _ | Named cb _ => cb end.

Definition isNamed (c : Call) : bool :=
  match c with Named _ _ => true | Universal _ _ _ => false end.

(** What an emission does: the invocations in order, each with the state
    of the emitter at the moment of the call, and how [emit] ends. *)
Record Emission := mkEmission {
  log : list (Call * EventEmitter);
  outcome : Outcome
}.

Definition calls (r : Emission) : list Call := (log r).*1.

(** [this.onceCallbacks[_type]?.has?.(callback)]: only a [Set] has a
    method [has]; on anything else the optional chain gives
    [undefined]. *)
Definition onceHas (this : EventEmitter) (_type : string)
    (callback : Handler) : bool :=
  match JsObject.get (onceCallbacks this) _type with
  | Some (VSet marks) => JsSet.has callback marks
  | _ => false
  end.

(** The statements of the name-scoped callback that follow
    [callback(arg)]. *)
Definition afterCall (this : EventEmitter) (type _type : string)
    (callback : Handler) : Outcome :=
  if onceHas this _type callback then
    match off this type callback with
    | ThrowTypeError this => ThrowTypeError this
    | ReturnThis this =>
        match JsObject.get (onceCallbacks this) _type with
        | Some (VSet marks) =>
            ReturnThis
              (with_onceCallbacks this
                 (JsObject.put (onceCallbacks this) _type
                    (VSet (JsSet.delete callback marks))))
        | _ => ThrowTypeError this
        end
    end
  else ReturnThis this.

(** An entry of the [Set] under iteration is visited only if it is still
    in the [Set] when its turn comes. *)
Definition live (this : EventEmitter) (_type : string)
    (callback : Handler) : bool :=
  match JsObject.get (events this) _type with
  | Some (VSet s) => JsSet.has callback s
  | _ => false
  end.

(** [this.events[_type].forEach(callback => { ... })] followed by
    [return this].  [entries] are the entries not yet visited.  The
    [Set] object stays the value of [events[_type]] throughout, because
    the callback only deletes from [Set]s in place. *)
Fixpoint forEachNamed (type _type : string) (arg : Payload)
    (entries : list Handler) (this : EventEmitter) : Emission :=
  match entries with
  | [] => mkEmission [] (ReturnThis this)
  | callback :: entries =>
      if live this _type callback then
        match afterCall this type _type callback with
        | ReturnThis this' =>
            let r := forEachNamed type _type arg entries this' in
            mkEmission ((Named callback arg, this) :: log r) (outcome r)
        | ThrowTypeError this' =>
            mkEmission [(Named callback arg, this)] (ThrowTypeError this')
        end
      else forEachNamed type _type arg entries this
  end.

(** [this.allEvents.forEach(callback => callback(type, arg))] *)
Definition forEachAll (type : string) (arg : Payload)
    (this : EventEmitter) : list (Call * EventEmitter) :=
  map (λ callback, (Universal callback type arg, this)) (allEvents this).

(** [emit(type, arg)] *)
Definition emit (this : EventEmitter) (type : string) (arg : Payload)
  : Emission :=
  let _type := getEventName this type (Some true) in
  let universal := forEachAll type arg this in
  match JsObject.get (events this) _type with
  | None => mkEmission universal (ReturnThis this)
  | Some VObj => mkEmission universal (ThrowTypeError this)
  | Some (VSet s) =>
      let r := forEachNamed type _type arg s this in
      mkEmission (universal ++ log r) (outcome r)
  end.

End Emit.

Arguments Call : clear implicits.
Arguments Emission : clear implicits.


(** ** Observations and sequences of calls *)

(** The handlers registered under a resolved name: the entries of the
    [Set] stored in [events] under it, none when there is no [Set]. *)
Definition handlersOf (this : EventEmitter) (name : string) : JsSet :=
  match JsObject.get (events this) name with
  | Some (VSet s) => s
  | _ => []
  end.

(** The handlers marked single-shot under a resolved name. *)
Definition onceMarked (this : EventEmitter) (name : string) : JsSet :=
  match JsObject.get (onceCallbacks this) name with
  | Some (VSet s) => s
  | _ => []
  end.

(** Every single-shot mark is on a registered handler. *)
Definition onceWithin (this : EventEmitter) : Prop :=
  ∀ name cb, cb ∈ onceMarked this name → cb ∈ handlersOf this name.

(** Registration and emission resolve a name alike: no prefix is
    configured, or [autoPrefix] is set. *)
Definition agrees (this : EventEmitter) : bool :=
  negb (truthy (eventsPrefix this)) || autoPrefix this.

(** The state of an emitter is well formed: every [Set] is duplicate-free
    and both dictionaries are as the methods build them. *)
Record wf (this : EventEmitter) : Prop := mkWf {
  wf_allEvents : NoDup (allEvents this);
  wf_events : JsObject.wf (events this);
  wf_onceCallbacks : JsObject.wf (onceCallbacks this)
}.

(** The name-scoped invocations of [cb] among [cs], and all invocations
    of [cb]. *)
Definition namedInvocations {Payload : Type} (cb : Handler)
    (cs : list (Call Payload)) : list (Call Payload) :=
  filter (λ c, isNamed c = true ∧ callee c = cb) cs.

Definition invocations {Payload : Type} (cb : Handler)
    (cs : list (Call Payload)) : list (Call Payload) :=
  filter (λ c, callee c = cb) cs.

(** A call of one of the seven public methods, under the names the
    specification gives them. *)
Inductive Op (Payload : Type) :=
  | Register (type : string) (callback : Handler)
  | Unregister (type : string) (callback : Handler)
  | RegisterExclusive (type : string) (callback : Handler)
  | RegisterOnce (type : string) (callback : Handler)
  | RegisterUniversal (callback : Handler)
  | UnregisterUniversal (callback : Handler)
  | Emit (type : string) (arg : Payload).

Arguments Register {Payload}.
Arguments Unregister {Payload}.
Arguments RegisterExclusive {Payload}.
Arguments RegisterOnce {Payload}.
Arguments RegisterUniversal {Payload}.
Arguments UnregisterUniversal {Payload}.
Arguments Emit {Payload}.

Definition step {Payload : Type} (this : EventEmitter) (op : Op Payload)
  : Outcome :=
  match op with
  | Register type cb => on this type cb
  | Unregister type cb => off this type cb
  | RegisterExclusive type cb => one this type cb
  | RegisterOnce type cb => once this type cb
  | RegisterUniversal cb => onAll this cb
  | UnregisterUniversal cb => offAll this cb
  | Emit type arg => outcome (emit this type arg)
  end.

(** The state after a sequence of calls on the same object.  A call that
    raises leaves the object as it was at the error; the caller goes on
    with the next call. *)
Definition run {Payload : Type} (ops : list (Op Payload))
    (this : EventEmitter) : EventEmitter :=
  foldl (λ this op, state (step this op)) this ops.

(** The calls after which every single-shot mark is still on a registered
    handler: registration of either kind, the two universal methods, and
    emission on an emitter that resolves names alike in both
    directions. *)
Definition keepsMarks {Payload : Type} (this : EventEmitter)
    (op : Op Payload) : bool :=
  match op with
  | Unregister _ _ | RegisterExclusive _ _ => false
  | Emit _ _ => agrees this
  | _ => true
  end.

(** Whether a name contains a colon, as every prefixed name does. *)
Fixpoint hasColon (s : string) : bool :=
  match s with
  | EmptyString => false
  | String c s => bool_decide (c = ":"%char) || hasColon s
  end.

(** ** The name-scoped pass when names are resolved alike

    On an emitter for which [agrees] holds, [off(type, callback)] inside
    [emit] reaches the [Set] under iteration.  One step of the pass then
    is [unmark]: a handler marked single-shot leaves both [Set]s. *)
Definition unmark (this : EventEmitter) (_type : string) (cb : Handler)
  : EventEmitter :=
  if bool_decide (cb ∈ onceMarked this _type) then
    with_onceCallbacks
      (with_events this
         (JsObject.put (events this) _type
            (VSet (JsSet.delete cb (handlersOf this _type)))))
      (JsObject.put (onceCallbacks this) _type
         (VSet (JsSet.delete cb (onceMarked this _type))))
  else this.

Definition sweep (_type : string) (entries : list Handler)
    (this : EventEmitter) : EventEmitter :=
  foldl (λ this cb, unmark this _type cb) this entries.

Fixpoint visits {Payload : Type} (arg : Payload) (_type : string)
    (entries : list Handler) (this : EventEmitter)
  : list (Call Payload * EventEmitter) :=
  match entries with
  | [] => []
  | cb :: entries =>
      (Named cb arg, this) :: visits arg _type entries (unmark this _type cb)
  end.

(** Two states with the same universal handlers and configuration. *)
Definition sameConfig (this this' : EventEmitter) : Prop :=
  allEvents this' = allEvents this
  ∧ eventsPrefix this' = eventsPrefix this
  ∧ autoPrefix this' = autoPrefix this.

(** * Properties *)

Close Scope string_scope.

(** ** Sets *)

Lemma elem_of_add (x cb : Handler) (s : JsSet) :
  x ∈ JsSet.add cb s ↔ x = cb ∨ x ∈ s.
Proof.
  unfold JsSet.add. case_decide as Hin.
  - split; [auto | intros [-> | ?]; done].
  - rewrite elem_of_app, list_elem_of_singleton. tauto.
Qed.

Lemma NoDup_add (cb : Handler) (s : JsSet) :
  NoDup s → NoDup (JsSet.add cb s).
Proof.
  intros Hs. unfold JsSet.add. case_decide as Hin; [done |].
  apply NoDup_app. split_and!; [done | | apply NoDup_singleton].
  intros x Hx ->%list_elem_of_singleton. done.
Qed.

Lemma add_present (cb : Handler) (s : JsSet) :
  cb ∈ s → JsSet.add cb s = s.
Proof. intros Hin. unfold JsSet.add. by rewrite decide_True. Qed.

Lemma elem_of_delete (x cb : Handler) (s : JsSet) :
  x ∈ JsSet.delete cb s ↔ x ≠ cb ∧ x ∈ s.
Proof. unfold JsSet.delete. by rewrite list_elem_of_filter. Qed.

Lemma NoDup_delete (cb : Handler) (s : JsSet) :
  NoDup s → NoDup (JsSet.delete cb s).
Proof. apply NoDup_filter. Qed.

Lemma delete_absent (cb : Handler) (s : JsSet) :
  cb ∉ s → JsSet.delete cb s = s.
Proof.
  intros Hnin. unfold JsSet.delete.
  induction s as [| x s IH]; [done |].
  apply not_elem_of_cons in Hnin as [Hne Hnin].
  rewrite filter_cons, decide_True by done. by rewrite IH.
Qed.

(** ** Dictionaries *)

Lemma get_put (obj : JsObject) (k j : string) (v : JsVal) :
  JsObject.get (JsObject.put obj k v) j
  = if decide (k = j) then Some v else JsObject.get obj j.
Proof.
  unfold JsObject.get, JsObject.put. rewrite lookup_insert.
  by case_decide.
Qed.

Lemma get_put_eq (obj : JsObject) (k : string) (v : JsVal) :
  JsObject.get (JsObject.put obj k v) k = Some v.
Proof. rewrite get_put. by rewrite decide_True. Qed.

Lemma get_put_ne (obj : JsObject) (k j : string) (v : JsVal) :
  k ≠ j → JsObject.get (JsObject.put obj k v) j = JsObject.get obj j.
Proof. intros Hne. rewrite get_put. by rewrite decide_False. Qed.

(** A [Set] read from a dictionary is an own property of it. *)
Lemma get_VSet_own (obj : JsObject) (k : string) (s : JsSet) :
  JsObject.get obj k = Some (VSet s) ↔ obj !! k = Some (VSet s).
Proof.
  unfold JsObject.get. destruct (obj !! k) as [v |]; [done |].
  by destruct (JsObject.inherited k).
Qed.

(** Writing back the value a read gave leaves every read unchanged. *)
Lemma put_get_id (obj : JsObject) (k : string) (s : JsSet) :
  JsObject.get obj k = Some (VSet s) → JsObject.put obj k (VSet s) = obj.
Proof. intros H%get_VSet_own. by apply insert_id. Qed.

Lemma get_empty (k : string) :
  JsObject.get ∅ k = if JsObject.inherited k then Some VObj else None.
Proof. unfold JsObject.get. by rewrite lookup_empty. Qed.

(** ** Names *)

Open Scope string_scope.

Lemma hasColon_app (p s : string) :
  hasColon (p ++ s) = hasColon p || hasColon s.
Proof.
  induction p as [| c p IH]; simpl; [done |].
  rewrite IH. by rewrite orb_assoc.
Qed.

(** No member of [Object.prototype] has a colon in its name, so a
    prefixed name never meets one. *)
Lemma inherited_no_colon (k : string) :
  JsObject.inherited k = true → hasColon k = false.
Proof.
  unfold JsObject.inherited. rewrite bool_decide_eq_true.
  unfold JsObject.prototypeKeys.
  rewrite !elem_of_cons, elem_of_nil.
  intros H. repeat (destruct H as [-> | H]; [reflexivity |]). done.
Qed.

Lemma prefixed_not_inherited (p type : string) :
  JsObject.inherited (p ++ ":" ++ type) = false.
Proof.
  destruct (JsObject.inherited _) eqn:E; [| done].
  apply inherited_no_colon in E.
  rewrite hasColon_app in E. simpl in E.
  by rewrite orb_true_r in E.
Qed.

Lemma string_length_app (p s : string) :
  String.length (p ++ s) = String.length p + String.length s.
Proof. induction p as [| c p IH]; simpl; [done | by rewrite IH]. Qed.

Lemma prefixed_longer (p type : string) : p ++ ":" ++ type ≠ type.
Proof.
  intros H. apply (f_equal String.length) in H.
  rewrite !string_length_app in H. simpl in H. lia.
Qed.

(** Emission prefixes the name whenever a prefix is configured. *)
Lemma getEventName_emit (this : EventEmitter) (type : string) :
  getEventName this type (Some true)
  = if truthy (eventsPrefix this)
    then eventsPrefix this ++ ":" ++ type else type.
Proof. unfold getEventName. simpl. by rewrite andb_true_r. Qed.

(** Registration prefixes it only when [autoPrefix] is set as well. *)
Lemma getEventName_register (this : EventEmitter) (type : string) :
  getEventName this type None
  = if truthy (eventsPrefix this) && autoPrefix this
    then eventsPrefix this ++ ":" ++ type else type.
Proof. reflexivity. Qed.

Lemma getEventName_agrees (this : EventEmitter) (type : string) :
  agrees this = true →
  getEventName this type None = getEventName this type (Some true).
Proof.
  unfold agrees. rewrite getEventName_emit, getEventName_register.
  destruct (truthy (eventsPrefix this)), (autoPrefix this); simpl; done.
Qed.

Lemma getEventName_disagrees (this : EventEmitter) (type : string) :
  agrees this = false →
  getEventName this type None = type
  ∧ getEventName this type (Some true) = eventsPrefix this ++ ":" ++ type.
Proof.
  unfold agrees. rewrite getEventName_emit, getEventName_register.
  destruct (truthy (eventsPrefix this)), (autoPrefix this); simpl; done.
Qed.

(** ** The callback of the name-scoped pass *)

Lemma off_sameConfig (this : EventEmitter) (type : string) (cb : Handler) :
  sameConfig this (state (off this type cb)).
Proof.
  unfold off. destruct (JsObject.get _ _) as [[s |] |]; by repeat split.
Qed.

Lemma afterCall_sameConfig (this : EventEmitter) (type _type : string)
    (cb : Handler) :
  sameConfig this (state (afterCall this type _type cb)).
Proof.
  unfold afterCall. destruct (onceHas this _type cb); [| by repeat split].
  pose proof (off_sameConfig this type cb) as Hoff.
  destruct (off this type cb) as [this' | this']; simpl in *; [| done].
  destruct (JsObject.get (onceCallbacks this') _type) as [[m |] |];
    simpl; done.
Qed.

Lemma onceHas_marked (this : EventEmitter) (_type : string) (cb : Handler) :
  onceHas this _type cb = bool_decide (cb ∈ onceMarked this _type).
Proof.
  unfold onceHas, onceMarked.
  destruct (JsObject.get _ _) as [[m |] |]; simpl; try done.
  all: symmetry; apply bool_decide_eq_false, not_elem_of_nil.
Qed.

Lemma live_handlers (this : EventEmitter) (_type : string) (cb : Handler) :
  live this _type cb = bool_decide (cb ∈ handlersOf this _type).
Proof.
  unfold live, handlersOf.
  destruct (JsObject.get _ _) as [[m |] |]; simpl; try done.
  all: symmetry; apply bool_decide_eq_false, not_elem_of_nil.
Qed.

(** When registration resolves [type] to the name under iteration, the
    callback does what [unmark] says and returns. *)
Lemma afterCall_unmark (this : EventEmitter) (type _type : string)
    (cb : Handler) (cur : JsSet) :
  getEventName this type None = _type →
  JsObject.get (events this) _type = Some (VSet cur) →
  afterCall this type _type cb = ReturnThis (unmark this _type cb).
Proof.
  intros Hname Hcur. unfold afterCall, unmark.
  rewrite onceHas_marked. case_bool_decide as Hin; [| done].
  unfold off. rewrite Hname, Hcur. simpl.
  unfold handlersOf. rewrite Hcur.
  unfold onceMarked in *.
  destruct (JsObject.get (onceCallbacks this) _type) as [[m |] |];
    [done | |]; by apply elem_of_nil in Hin.
Qed.

Close Scope string_scope.

Lemma getEventName_sameConfig (this this' : EventEmitter) (type : string)
    (usePrefix : option bool) :
  sameConfig this this' →
  getEventName this' type usePrefix = getEventName this type usePrefix.
Proof. intros (_ & Hp & Ha). unfold getEventName. by rewrite Hp, Ha. Qed.

Lemma agrees_sameConfig (this this' : EventEmitter) :
  sameConfig this this' → agrees this' = agrees this.
Proof. intros (_ & Hp & Ha). unfold agrees. by rewrite Hp, Ha. Qed.

Lemma sameConfig_trans (a b c : EventEmitter) :
  sameConfig a b → sameConfig b c → sameConfig a c.
Proof.
  intros (H1 & H2 & H3) (H4 & H5 & H6). repeat split; congruence.
Qed.

(** ** The name-scoped pass *)

(** A property of the state kept by the callback is kept by the pass. *)
Lemma forEachNamed_invariant {Payload : Type} (P : EventEmitter → Prop)
    (type _type : string) (arg : Payload) :
  (∀ this cb, P this → P (state (afterCall this type _type cb))) →
  ∀ entries this, P this →
    P (state (outcome (forEachNamed type _type arg entries this))).
Proof.
  intros Hstep entries.
  induction entries as [| cb entries IH]; intros this HP; simpl; [done |].
  destruct (live this _type cb); [| by apply IH].
  specialize (Hstep this cb HP).
  destruct (afterCall this type _type cb) as [this' | this']; simpl in *.
  - by apply IH.
  - done.
Qed.

Lemma emit_invariant {Payload : Type} (P : EventEmitter → Prop)
    (this : EventEmitter) (type : string) (arg : Payload) :
  (∀ this cb,
     P this →
     P (state
          (afterCall this type (getEventName this type (Some true)) cb))) →
  (∀ this', P this' → sameConfig this this') →
  P this → P (state (outcome (emit this type arg))).
Proof.
  intros Hstep Hcfg HP. unfold emit.
  destruct (JsObject.get _ _) as [[s |] |]; simpl; try done.
  apply forEachNamed_invariant; [| done].
  intros st cb Hst. specialize (Hstep st cb Hst).
  by rewrite (getEventName_sameConfig this st) in Hstep by auto.
Qed.

(** Every invocation of the pass is of an entry, with the payload alone. *)
Lemma forEachNamed_calls {Payload : Type} (type _type : string)
    (arg : Payload) (entries : list Handler) (this : EventEmitter) :
  ∃ visited, visited ⊆ entries
    ∧ calls (forEachNamed type _type arg entries this)
      = map (λ cb, Named cb arg) visited.
Proof.
  revert this.
  induction entries as [| cb entries IH]; intros this; simpl.
  - by exists [].
  - destruct (live this _type cb).
    + destruct (afterCall this type _type cb) as [this' | this'].
      * destruct (IH this') as (visited & Hsub & Hcalls).
        exists (cb :: visited). split; [by apply list_subseteq_skip |].
        unfold calls in *. cbn [log]. rewrite fmap_cons. cbn [fst].
        by rewrite Hcalls.
      * exists [cb]. split; [| done].
        apply list_subseteq_skip, list_subseteq_nil.
    + destruct (IH this) as (visited & Hsub & Hcalls).
      exists visited. split; [by apply list_subseteq_cons | done].
Qed.

(** The universal pass invokes every universal handler, in order, with
    the name as it was passed to [emit] and the payload. *)
Lemma forEachAll_calls {Payload : Type} (type : string) (arg : Payload)
    (this : EventEmitter) :
  (forEachAll type arg this).*1
  = map (λ cb, Universal cb type arg) (allEvents this).
Proof.
  unfold forEachAll. rewrite <- list_fmap_compose. done.
Qed.

(** ** The pass when names are resolved alike *)

Lemma unmark_sameConfig (this : EventEmitter) (_type : string)
    (cb : Handler) :
  sameConfig this (unmark this _type cb).
Proof. unfold unmark. case_bool_decide; by repeat split. Qed.

Lemma handlersOf_unmark (this : EventEmitter) (_type : string)
    (cb : Handler) :
  handlersOf (unmark this _type cb) _type
  = if bool_decide (cb ∈ onceMarked this _type)
    then JsSet.delete cb (handlersOf this _type)
    else handlersOf this _type.
Proof.
  unfold unmark. case_bool_decide; [| done].
  unfold handlersOf at 1. simpl. by rewrite get_put_eq.
Qed.

Lemma onceMarked_unmark (this : EventEmitter) (_type : string)
    (cb : Handler) :
  onceMarked (unmark this _type cb) _type
  = JsSet.delete cb (onceMarked this _type).
Proof.
  unfold unmark. case_bool_decide as Hin.
  - unfold onceMarked at 1. simpl. by rewrite get_put_eq.
  - by rewrite delete_absent.
Qed.

Lemma unmark_other (this : EventEmitter) (_type name : string)
    (cb : Handler) :
  _type ≠ name →
  handlersOf (unmark this _type cb) name = handlersOf this name
  ∧ onceMarked (unmark this _type cb) name = onceMarked this name.
Proof.
  intros Hne. unfold unmark. case_bool_decide; [| done].
  unfold handlersOf, onceMarked. simpl. by rewrite !get_put_ne.
Qed.


(** With names resolved alike, the pass visits every entry of the [Set]
    it started on, in order, never raises, and between two visits does
    exactly [unmark]. *)
Lemma forEachNamed_agrees {Payload : Type} (type _type : string)
    (arg : Payload) (entries : list Handler) (this : EventEmitter) :
  getEventName this type None = _type →
  NoDup entries →
  entries ⊆ handlersOf this _type →
  forEachNamed type _type arg entries this
  = mkEmission (visits arg _type entries this)
               (ReturnThis (sweep _type entries this)).
Proof.
  revert this.
  induction entries as [| cb entries IH];
    intros this Hname Hnd Hsub; simpl; [done |].
  apply NoDup_cons in Hnd as [Hcb Hnd].
  assert (∃ cur, JsObject.get (events this) _type = Some (VSet cur))
    as [cur Hcur].
  { unfold handlersOf in Hsub.
    destruct (JsObject.get (events this) _type) as [[s |] |]; [by eauto | |];
      specialize (Hsub cb (list_elem_of_here _ _));
      by apply elem_of_nil in Hsub. }
  rewrite live_handlers, bool_decide_eq_true_2
    by (apply Hsub; apply list_elem_of_here).
  rewrite (afterCall_unmark _ _ _ _ cur) by done.
  rewrite IH; [done | | done |].
  - by rewrite (getEventName_sameConfig this) by apply unmark_sameConfig.
  - intros x Hx. rewrite handlersOf_unmark.
    assert (x ∈ handlersOf this _type) by (apply Hsub; by right).
    case_bool_decide; [| done].
    apply elem_of_delete. split; [| done]. by intros ->.
Qed.

Lemma visits_calls {Payload : Type} (arg : Payload) (_type : string)
    (entries : list Handler) (this : EventEmitter) :
  (visits arg _type entries this).*1 = map (λ cb, Named cb arg) entries.
Proof.
  revert this. induction entries as [| cb entries IH]; intros this; [done |].
  cbn [visits]. rewrite fmap_cons. cbn [fst map]. by rewrite IH.
Qed.



(** After the pass a handler is registered iff it was and it was not both
    visited and marked single-shot. *)
Lemma handlersOf_sweep (_type : string) (entries : list Handler)
    (this : EventEmitter) (x : Handler) :
  x ∈ handlersOf (sweep _type entries this) _type
  ↔ x ∈ handlersOf this _type
    ∧ ¬ (x ∈ entries ∧ x ∈ onceMarked this _type).
Proof.
  revert this. induction entries as [| cb entries IH]; intros this.
  - simpl. rewrite elem_of_nil. tauto.
  - change (sweep _type (cb :: entries) this)
      with (sweep _type entries (unmark this _type cb)).
    rewrite IH, handlersOf_unmark, onceMarked_unmark, elem_of_cons.
    destruct (decide (x = cb)) as [-> | Hne];
      case_bool_decide as Hin; rewrite ?elem_of_delete; tauto.
Qed.


(** An emission on an emitter that resolves names alike, when the name is
    not that of a member of [Object.prototype] left unshadowed. *)
Lemma emit_agrees {Payload : Type} (this : EventEmitter) (type : string)
    (arg : Payload) :
  let _type := getEventName this type (Some true) in
  agrees this = true →
  NoDup (handlersOf this _type) →
  JsObject.get (events this) _type ≠ Some VObj →
  emit this type arg
  = mkEmission
      (forEachAll type arg this
         ++ visits arg _type (handlersOf this _type) this)
      (ReturnThis (sweep _type (handlersOf this _type) this)).
Proof.
  intros _type Hag Hnd Hobj. unfold emit, handlersOf in *.
  fold _type in Hobj |- *.
  destruct (JsObject.get (events this) _type) as [[s |] |] eqn:Hget.
  - rewrite forEachNamed_agrees; [done | | done |].
    + by apply getEventName_agrees.
    + unfold handlersOf. by rewrite Hget.
  - done.
  - simpl. by rewrite app_nil_r.
Qed.

Lemma emit_agrees_calls {Payload : Type} (this : EventEmitter)
    (type : string) (arg : Payload) :
  let _type := getEventName this type (Some true) in
  agrees this = true →
  NoDup (handlersOf this _type) →
  JsObject.get (events this) _type ≠ Some VObj →
  calls (emit this type arg)
  = map (λ cb, Universal cb type arg) (allEvents this)
    ++ map (λ cb, Named cb arg) (handlersOf this _type).
Proof.
  intros _type Hag Hnd Hobj. rewrite emit_agrees by done.
  unfold calls. cbn [log]. fold _type.
  by rewrite fmap_app, forEachAll_calls, visits_calls.
Qed.

(** ** Single-shot marks and registered handlers *)

(** What the two statements of [addTo] leave under each name. *)
Lemma addTo_get (obj : gmap string JsVal) (k j : string) (cb : Handler) :
  JsObject.get (addTo obj k cb).1 j
  = if decide (k = j)
    then match JsObject.get obj k with
         | Some (VSet s) => Some (VSet (JsSet.add cb s))
         | Some VObj => Some VObj
         | None => Some (VSet [cb])
         end
    else JsObject.get obj j.
Proof.
  unfold addTo.
  destruct (JsObject.get obj k) as [[s |] |]; simpl; by rewrite get_put.
Qed.

Lemma addTo_ok (obj : gmap string JsVal) (k : string) (cb : Handler) :
  (addTo obj k cb).2
  = match JsObject.get obj k with Some VObj => false | _ => true end.
Proof. unfold addTo. by destruct (JsObject.get obj k) as [[s |] |]. Qed.

(** The members of the [Set] under [j] after [addTo]: those before, and
    [cb] when [j] is the name added to and a [Set] could be used. *)
Lemma addTo_members (obj : gmap string JsVal) (k j : string)
    (cb x : Handler) :
  x ∈ match JsObject.get (addTo obj k cb).1 j with
      | Some (VSet s) => s
      | _ => []
      end
  ↔ x ∈ match JsObject.get obj j with Some (VSet s) => s | _ => [] end
    ∨ (x = cb ∧ k = j ∧ (addTo obj k cb).2 = true).
Proof.
  rewrite addTo_get, addTo_ok. case_decide as Hk.
  - subst j. destruct (JsObject.get obj k) as [[s |] |].
    + rewrite elem_of_add. tauto.
    + rewrite elem_of_nil. intuition congruence.
    + rewrite list_elem_of_singleton, elem_of_nil. tauto.
  - tauto.
Qed.

Lemma on_state (this : EventEmitter) (type : string) (cb : Handler) :
  state (on this type cb)
  = with_events this
      (addTo (events this) (getEventName this type None) cb).1.
Proof. unfold on. cbv zeta. by destruct (addTo _ _ _) as [o []]. Qed.

Lemma on_returns (this : EventEmitter) (type : string) (cb : Handler) :
  returns (on this type cb)
  = (addTo (events this) (getEventName this type None) cb).2.
Proof. unfold on. cbv zeta. by destruct (addTo _ _ _) as [o []]. Qed.

Lemma onceWithin_on (this : EventEmitter) (type : string) (cb : Handler) :
  onceWithin this → onceWithin (state (on this type cb)).
Proof.
  intros Hinv name x Hx. rewrite on_state in Hx |- *.
  unfold handlersOf. simpl. apply addTo_members. left. by apply Hinv.
Qed.

Lemma onceWithin_once (this : EventEmitter) (type : string) (cb : Handler) :
  onceWithin this → onceWithin (state (once this type cb)).
Proof.
  intros Hinv name x. unfold once.
  set (k := getEventName this type None).
  pose proof (addTo_members (events this) k name cb x) as He.
  pose proof (addTo_ok (events this) k cb) as Hok.
  destruct (addTo (events this) k cb) as [o ok]. simpl in He, Hok.
  destruct ok; simpl.
  - pose proof (addTo_members (onceCallbacks this) k name cb x) as Hm.
    destruct (addTo (onceCallbacks this) k cb) as [m ok']. simpl in Hm.
    assert (onceMarked
              (state (if ok'
                      then ReturnThis
                             (with_onceCallbacks (with_events this o) m)
                      else ThrowTypeError
                             (with_onceCallbacks (with_events this o) m)))
              name
            = match JsObject.get m name with
              | Some (VSet s) => s
              | _ => []
              end) as -> by by destruct ok'.
    assert (handlersOf
              (state (if ok'
                      then ReturnThis
                             (with_onceCallbacks (with_events this o) m)
                      else ThrowTypeError
                             (with_onceCallbacks (with_events this o) m)))
              name
            = match JsObject.get o name with
              | Some (VSet s) => s
              | _ => []
              end) as -> by by destruct ok'.
    rewrite Hm, He. intros [Hx | (-> & -> & _)].
    + left. by apply Hinv.
    + by right.
  - intros Hx. unfold handlersOf. simpl. apply He. left. by apply Hinv.
Qed.

Lemma onceWithin_unmark (this : EventEmitter) (_type : string)
    (cb : Handler) :
  onceWithin this → onceWithin (unmark this _type cb).
Proof.
  intros Hinv name x. destruct (decide (_type = name)) as [<- | Hne].
  - rewrite onceMarked_unmark, handlersOf_unmark, elem_of_delete.
    intros [Hx Hin%Hinv]. case_bool_decide; [| done].
    by apply elem_of_delete.
  - destruct (unmark_other this _type name cb Hne) as [-> ->]. apply Hinv.
Qed.

Lemma onceWithin_emit {Payload : Type} (this : EventEmitter)
    (type : string) (arg : Payload) :
  agrees this = true →
  onceWithin this → onceWithin (state (outcome (emit this type arg))).
Proof.
  intros Hag Hinv.
  apply (emit_invariant (λ st, onceWithin st ∧ sameConfig this st));
    [| tauto | split; [done | by repeat split]].
  intros st cb [Hst Hcfg]. set (_type := getEventName st type (Some true)).
  assert (getEventName st type None = _type) as Hname.
  { apply getEventName_agrees. by rewrite (agrees_sameConfig this). }
  destruct (JsObject.get (events st) _type) as [[cur |] |] eqn:Hget.
  - rewrite (afterCall_unmark _ _ _ _ cur) by done. simpl. split.
    + by apply onceWithin_unmark.
    + eapply sameConfig_trans; [done | apply unmark_sameConfig].
  - unfold afterCall. rewrite onceHas_marked, bool_decide_eq_false_2; [done |].
    intros Hin%Hst. unfold handlersOf in Hin. rewrite Hget in Hin.
    by apply elem_of_nil in Hin.
  - unfold afterCall. rewrite onceHas_marked, bool_decide_eq_false_2; [done |].
    intros Hin%Hst. unfold handlersOf in Hin. rewrite Hget in Hin.
    by apply elem_of_nil in Hin.
Qed.

Lemma emit_sameConfig {Payload : Type} (this : EventEmitter)
    (type : string) (arg : Payload) :
  sameConfig this (state (outcome (emit this type arg))).
Proof.
  apply (emit_invariant (sameConfig this)); [| done | by repeat split].
  intros st cb Hst. eapply sameConfig_trans; [done |].
  apply afterCall_sameConfig.
Qed.

(** No method changes the configuration. *)
Lemma step_config {Payload : Type} (this : EventEmitter) (op : Op Payload) :
  eventsPrefix (state (step this op)) = eventsPrefix this
  ∧ autoPrefix (state (step this op)) = autoPrefix this.
Proof.
  destruct op as [type cb | type cb | type cb | type cb | cb | cb | type arg];
    simpl.
  - by rewrite on_state.
  - apply off_sameConfig.
  - done.
  - unfold once. destruct (addTo _ _ _) as [o []]; [| done].
    by destruct (addTo _ _ _) as [m []].
  - done.
  - done.
  - apply emit_sameConfig.
Qed.

Lemma step_agrees {Payload : Type} (this : EventEmitter) (op : Op Payload) :
  agrees (state (step this op)) = agrees this.
Proof.
  destruct (step_config this op) as [Hp Ha]. unfold agrees. by rewrite Hp, Ha.
Qed.

Lemma onceWithin_step {Payload : Type} (this : EventEmitter)
    (op : Op Payload) :
  keepsMarks this op = true →
  onceWithin this → onceWithin (state (step this op)).
Proof.
  destruct op as [type cb | type cb | type cb | type cb | cb | cb | type arg];
    simpl; intros Hop Hinv; try done.
  - by apply onceWithin_on.
  - by apply onceWithin_once.
  - by apply onceWithin_emit.
Qed.

Lemma keepsMarks_agrees {Payload : Type} (this this' : EventEmitter)
    (op : Op Payload) :
  agrees this' = agrees this → keepsMarks this' op = keepsMarks this op.
Proof. intros H. destruct op; simpl; congruence. Qed.

Lemma onceWithin_run {Payload : Type} (ops : list (Op Payload))
    (this : EventEmitter) :
  Forall (λ op, keepsMarks this op = true) ops →
  onceWithin this → onceWithin (run ops this).
Proof.
  revert this. induction ops as [| op ops IH]; intros this Hops Hinv;
    [done |].
  apply Forall_cons in Hops as [Hop Hops]. simpl. apply IH.
  - eapply Forall_impl; [done |]. intros op' Hop'. simpl in Hop'.
    by rewrite (keepsMarks_agrees this) by apply step_agrees.
  - by apply onceWithin_step.
Qed.

(** ** Counting invocations *)

Lemma namedInvocations_universal {Payload : Type} (h : Handler)
    (type : string) (arg : Payload) (l : list Handler) :
  namedInvocations h (map (λ cb, Universal cb type arg) l) = [].
Proof.
  unfold namedInvocations. induction l as [| cb l IH]; [done |].
  simpl. rewrite filter_cons, decide_False; [done |]. by intros [? _].
Qed.

Lemma namedInvocations_absent {Payload : Type} (h : Handler)
    (arg : Payload) (l : list Handler) :
  h ∉ l → namedInvocations h (map (λ cb, Named cb arg) l) = [].
Proof.
  unfold namedInvocations. induction l as [| cb l IH]; [done |].
  intros [Hne Hnin]%not_elem_of_cons. simpl.
  rewrite filter_cons, decide_False; [by apply IH |].
  simpl. intros [_ ->]. done.
Qed.

(** A handler in a duplicate-free [Set] is invoked once by a pass over
    it. *)
Lemma namedInvocations_once {Payload : Type} (h : Handler) (arg : Payload)
    (l : list Handler) :
  NoDup l → h ∈ l →
  namedInvocations h (map (λ cb, Named cb arg) l) = [Named h arg].
Proof.
  unfold namedInvocations. induction l as [| cb l IH]; intros Hnd Hin.
  - by apply elem_of_nil in Hin.
  - apply NoDup_cons in Hnd as [Hcb Hnd]. simpl.
    destruct (decide (cb = h)) as [-> | Hne].
    + rewrite filter_cons, decide_True by done.
      f_equal. by apply namedInvocations_absent.
    + rewrite filter_cons, decide_False by (simpl; tauto).
      apply IH; [done |]. apply elem_of_cons in Hin as [-> | Hin]; done.
Qed.

Lemma namedInvocations_app {Payload : Type} (h : Handler)
    (l1 l2 : list (Call Payload)) :
  namedInvocations h (l1 ++ l2)
  = namedInvocations h l1 ++ namedInvocations h l2.
Proof. apply filter_app. Qed.

(** ** Well-formed states *)

Lemma wf_empty : JsObject.wf ∅.
Proof.
  split_and!.
  - intros k s H. by rewrite lookup_empty in H.
  - intros s H. by rewrite lookup_empty in H.
  - intros k H. by rewrite lookup_empty in H.
Qed.

Lemma wf_constructor (eventsPrefix : string) (autoPrefix : bool) :
  wf (constructor eventsPrefix autoPrefix).
Proof. split; simpl; [apply NoDup_nil_2 | apply wf_empty ..]. Qed.

Lemma wf_get_NoDup (obj : gmap string JsVal) (k : string) (s : JsSet) :
  JsObject.wf obj → JsObject.get obj k = Some (VSet s) → NoDup s.
Proof. intros (Hnd & _ & _) Hget%get_VSet_own. by apply Hnd in Hget. Qed.

(** On a well-formed dictionary a read gives a value that is not a [Set]
    only under the name of a member of [Object.prototype]. *)
Lemma wf_get_VObj (obj : gmap string JsVal) (k : string) :
  JsObject.wf obj → JsObject.get obj k = Some VObj →
  JsObject.inherited k = true.
Proof.
  intros (_ & _ & Hobj). unfold JsObject.get.
  destruct (obj !! k) as [[s |] |] eqn:Hk; [done | | ].
  - intros _. by apply Hobj.
  - by destruct (JsObject.inherited k).
Qed.

Lemma wf_handlersOf (this : EventEmitter) (name : string) :
  wf this → NoDup (handlersOf this name).
Proof.
  intros Hwf. unfold handlersOf.
  destruct (JsObject.get _ _) as [[s |] |] eqn:Hget;
    [| apply NoDup_nil_2 ..].
  by apply (wf_get_NoDup _ _ _ (wf_events _ Hwf)) in Hget.
Qed.

(** Storing a duplicate-free [Set] where a read gave a [Set] or nothing
    keeps a dictionary well formed. *)
Lemma wf_put_VSet (obj : gmap string JsVal) (k : string) (s : JsSet) :
  JsObject.wf obj → NoDup s → JsObject.get obj k ≠ Some VObj →
  JsObject.wf (JsObject.put obj k (VSet s)).
Proof.
  intros (Hnd & Hplain & Hobj) Hs Hget. unfold JsObject.put. split_and!.
  - intros j s'. rewrite lookup_insert. case_decide; [| apply Hnd].
    by intros [= <-].
  - intros s'. rewrite lookup_insert. case_decide as Hk; [| apply Hplain].
    subst k. exfalso. apply Hget. unfold JsObject.get.
    destruct (obj !! "__proto__") as [[s0 |] |] eqn:Hp; [| done | done].
    by apply Hplain in Hp.
  - intros j. rewrite lookup_insert. case_decide; [done | apply Hobj].
Qed.

Lemma wf_put_VObj (obj : gmap string JsVal) (k : string) :
  JsObject.wf obj → JsObject.get obj k = Some VObj →
  JsObject.wf (JsObject.put obj k VObj).
Proof.
  intros Hwf Hget. pose proof (wf_get_VObj _ _ Hwf Hget) as Hk.
  destruct Hwf as (Hnd & Hplain & Hobj). unfold JsObject.put. split_and!.
  - intros j s'. rewrite lookup_insert. case_decide; [done | apply Hnd].
  - intros s'. rewrite lookup_insert. case_decide; [done | apply Hplain].
  - intros j. rewrite lookup_insert. case_decide; [by subst | apply Hobj].
Qed.

Lemma wf_addTo (obj : gmap string JsVal) (k : string) (cb : Handler) :
  JsObject.wf obj → JsObject.wf (addTo obj k cb).1.
Proof.
  intros Hwf. unfold addTo.
  destruct (JsObject.get obj k) as [[s |] |] eqn:Hget; simpl.
  - apply wf_put_VSet; [done | | by rewrite Hget].
    eapply NoDup_add, wf_get_NoDup; done.
  - by apply wf_put_VObj.
  - apply wf_put_VSet; [done | | by rewrite Hget].
    apply NoDup_singleton.
Qed.

Lemma wf_on (this : EventEmitter) (type : string) (cb : Handler) :
  wf this → wf (state (on this type cb)).
Proof.
  intros [Ha He Ho]. rewrite on_state. split; simpl; try done.
  by apply wf_addTo.
Qed.

Lemma wf_off (this : EventEmitter) (type : string) (cb : Handler) :
  wf this → wf (state (off this type cb)).
Proof.
  intros [Ha He Ho]. unfold off.
  destruct (JsObject.get _ _) as [[s |] |] eqn:Hget; simpl; try done.
  split; simpl; try done.
  apply wf_put_VSet; [done | | by rewrite Hget].
  apply NoDup_delete. by apply (wf_get_NoDup _ _ _ He Hget).
Qed.

(** [one] keeps the state well formed unless it stores its [Set] in the
    prototype slot of [events]. *)
Lemma wf_one (this : EventEmitter) (type : string) (cb : Handler) :
  getEventName this type None ≠ "__proto__" →
  wf this → wf (state (one this type cb)).
Proof.
  intros Hk [Ha (Hnd & Hplain & Hobj) Ho]. split; simpl; try done.
  unfold JsObject.put. split_and!.
  - intros j s. rewrite lookup_insert. case_decide; [| apply Hnd].
    intros [= <-]. apply NoDup_singleton.
  - intros s. rewrite lookup_insert. case_decide; [done | apply Hplain].
  - intros j. rewrite lookup_insert. case_decide; [done | apply Hobj].
Qed.

Lemma wf_once (this : EventEmitter) (type : string) (cb : Handler) :
  wf this → wf (state (once this type cb)).
Proof.
  intros [Ha He Ho]. unfold once.
  pose proof (wf_addTo (events this) (getEventName this type None) cb He)
    as He'.
  destruct (addTo (events this) _ cb) as [o []]; simpl in *; [| by split].
  pose proof (wf_addTo (onceCallbacks this)
                (getEventName this type None) cb Ho) as Ho'.
  destruct (addTo (onceCallbacks this) _ cb) as [m []]; by split.
Qed.

Lemma wf_onAll (this : EventEmitter) (cb : Handler) :
  wf this → wf (state (onAll this cb)).
Proof. intros [Ha He Ho]. split; simpl; try done. by apply NoDup_add. Qed.

Lemma wf_offAll (this : EventEmitter) (cb : Handler) :
  wf this → wf (state (offAll this cb)).
Proof. intros [Ha He Ho]. split; simpl; try done. by apply NoDup_delete. Qed.

Lemma wf_afterCall (this : EventEmitter) (type _type : string)
    (cb : Handler) :
  wf this → wf (state (afterCall this type _type cb)).
Proof.
  intros Hwf. unfold afterCall. destruct (onceHas this _type cb); [| done].
  pose proof (wf_off this type cb Hwf) as Hoff.
  destruct (off this type cb) as [this' | this']; simpl in *; [| done].
  destruct (JsObject.get (onceCallbacks this') _type) as [[m |] |] eqn:Hget;
    simpl; try done.
  destruct Hoff as [Ha He Ho]. split; simpl; try done.
  apply wf_put_VSet; [done | | by rewrite Hget].
  apply NoDup_delete. by apply (wf_get_NoDup _ _ _ Ho Hget).
Qed.

Lemma wf_emit {Payload : Type} (this : EventEmitter) (type : string)
    (arg : Payload) :
  wf this → wf (state (outcome (emit this type arg))).
Proof.
  intros Hwf.
  apply (emit_invariant (λ st, wf st ∧ sameConfig this st));
    [| tauto | split; [done | by repeat split]].
  intros st cb [Hst Hcfg]. split; [by apply wf_afterCall |].
  eapply sameConfig_trans; [done | apply afterCall_sameConfig].
Qed.

(** Every call keeps the state well formed, but for a [one] that stores
    its [Set] in the prototype slot of [events]. *)
Lemma wf_step {Payload : Type} (this : EventEmitter) (op : Op Payload) :
  (∀ type cb, op = RegisterExclusive type cb →
     getEventName this type None ≠ "__proto__") →
  wf this → wf (state (step this op)).
Proof.
  intros Hone Hwf.
  destruct op as [type cb | type cb | type cb | type cb | cb | cb | type arg];
    simpl.
  - by apply wf_on.
  - by apply wf_off.
  - apply wf_one; [by eapply Hone | done].
  - by apply wf_once.
  - by apply wf_onAll.
  - by apply wf_offAll.
  - by apply wf_emit.
Qed.

(** Every state reached from a new emitter without such a [one] is well
    formed. *)
Lemma wf_run {Payload : Type} (ops : list (Op Payload))
    (this : EventEmitter) :
  Forall (λ op, ∀ type cb, op = RegisterExclusive type cb →
                  getEventName this type None ≠ "__proto__") ops →
  wf this → wf (run ops this).
Proof.
  revert this. induction ops as [| op ops IH]; intros this Hops Hwf;
    [done |].
  apply Forall_cons in Hops as [Hop Hops]. simpl. apply IH.
  - eapply Forall_impl; [done |]. intros op' Hop' type cb Heq. simpl in Hop'.
    destruct (step_config this op) as [Hp Ha].
    unfold getEventName in *. rewrite Hp, Ha. by apply (Hop' type cb).
  - by apply wf_step.
Qed.

(** What [on] leaves when it returns: the handler added to the [Set]
    under the resolved name. *)
Lemma on_ReturnThis (this this1 : EventEmitter) (type : string)
    (cb : Handler) :
  on this type cb = ReturnThis this1 →
  let _type := getEventName this type None in
  this1
  = with_events this
      (JsObject.put (events this) _type
         (VSet (JsSet.add cb (handlersOf this _type))))
  ∧ JsObject.get (events this) _type ≠ Some VObj.
Proof.
  intros Hon _type. unfold on, addTo, handlersOf in *. fold _type in Hon |- *.
  destruct (JsObject.get (events this) _type) as [[s |] |];
    simpl in Hon; by inversion Hon.
Qed.

(** A fresh emitter has nothing under a name that registration or
    emission resolves ["x"] to. *)
Lemma fresh_get_x (prefix : string) (auto : bool) (usePrefix : option bool)
    (obj : EventEmitter → gmap string JsVal) :
  obj (constructor prefix auto) = ∅ →
  JsObject.get (obj (constructor prefix auto))
    (getEventName (constructor prefix auto) "x" usePrefix) = None.
Proof.
  intros ->. rewrite get_empty. unfold getEventName.
  destruct (_ && _); [| done]. simpl eventsPrefix.
  by rewrite prefixed_not_inherited.
Qed.

(** * The claims of the specification *)

(** C1.  On [new EventEmitter("ns", false)], [once("ns:x", h)] registers
    [h] single-shot under ["ns:x"], the name [emit("x", p)] resolves to.
    The first [emit("x", p)] invokes [h] and removes its mark, but
    [this.off(type, callback)] resolves ["x"] without the prefix and
    finds no [Set]: [h] stays registered, and the second [emit("x", p)]
    invokes it again. *)
Theorem once_handler_invoked_again_under_prefix :
  let this0 := state (once (constructor "ns" false) "ns:x" 1) in
  let r1 := emit this0 "x" 7 in
  let this1 := state (outcome r1) in
  let r2 := emit this1 "x" 7 in
  handlersOf this0 "ns:x" = [1]
  ∧ onceMarked this0 "ns:x" = [1]
  ∧ calls r1 = [Named 1 7]
  ∧ handlersOf this1 "ns:x" = [1]
  ∧ onceMarked this1 "ns:x" = []
  ∧ calls r2 = [Named 1 7].
Proof. by split_and!. Qed.

(** C2, as the code has it.  On a new emitter no handler is marked
    single-shot, and [on], [once], [onAll] and [offAll] keep every mark
    on a registered handler; so does [emit] on an emitter that resolves
    names alike for registration and emission.  ([off] and [one] remove
    handlers and leave their marks.) *)
Theorem once_marks_within_handlers :
  ∀ (Payload : Type) (eventsPrefix : string) (autoPrefix : bool)
    (ops : list (Op Payload)),
    Forall (λ op, keepsMarks (constructor eventsPrefix autoPrefix) op = true)
           ops →
    onceWithin (run ops (constructor eventsPrefix autoPrefix)).
Proof.
  intros Payload pfx auto ops Hops. apply onceWithin_run; [done |].
  intros name cb Hin. unfold onceMarked in Hin. simpl in Hin.
  rewrite get_empty in Hin. destruct (JsObject.inherited name);
    by apply elem_of_nil in Hin.
Qed.

Lemma once_marks_within_handlers_witness :
  onceWithin
    (run [RegisterOnce "x" 1; Register "x" 2; Emit "x" 7;
          RegisterUniversal 3; RegisterOnce "y" 2; UnregisterUniversal 3]
         newEventEmitter).
Proof.
  apply (once_marks_within_handlers nat EmptyString false).
  repeat constructor.
Defined.

(** C2 fails as stated: after [once("x", h)], both [off("x", h)] and
    [one("x", g)] leave [h] marked single-shot under ["x"] while it is no
    longer registered there.  So does [emit("x", p)] on
    [new EventEmitter("ns", false)] after [once("x", h)] and
    [once("ns:x", h)]: it invokes [h] for ["ns:x"] and unregisters it
    from ["x"]. *)
Lemma once_mark_outlives_off_and_one :
  (let this :=
     run (Payload := nat) [RegisterOnce "x" 1; Unregister "x" 1]
         newEventEmitter in
   1 ∈ onceMarked this "x" ∧ (1 ∉ handlersOf this "x")
   ∧ (¬ onceWithin this))
  ∧ (let this :=
       run (Payload := nat) [RegisterOnce "x" 1; RegisterExclusive "x" 2]
           newEventEmitter in
     1 ∈ onceMarked this "x" ∧ (1 ∉ handlersOf this "x")
     ∧ (¬ onceWithin this))
  ∧ (let this :=
       run [RegisterOnce "x" 1; RegisterOnce "ns:x" 1; Emit "x" 7]
           (constructor "ns" false) in
     1 ∈ onceMarked this "x" ∧ (1 ∉ handlersOf this "x")
     ∧ (¬ onceWithin this)).
Proof.
  assert (∀ this, 1 ∈ onceMarked this "x" → 1 ∉ handlersOf this "x" →
            1 ∈ onceMarked this "x" ∧ (1 ∉ handlersOf this "x")
            ∧ (¬ onceWithin this)) as Hbreak.
  { intros this Hin Hnin. split_and!; [done | done |].
    intros Hinv. by apply Hnin, Hinv. }
  split_and!; apply Hbreak; vm_compute.
  - apply list_elem_of_here.
  - apply not_elem_of_nil.
  - apply list_elem_of_here.
  - intros H. apply list_elem_of_singleton in H. done.
  - apply list_elem_of_here.
  - apply not_elem_of_nil.
Qed.

(** C3.  Emission applies a configured prefix whatever [autoPrefix] is;
    registration applies it only when [autoPrefix] is set.  On
    [new EventEmitter("ns", false)], [on("x", h)] stores [h] under the raw
    name ["x"], [emit("x", p)] looks under ["ns:x"] and invokes nothing.  On
    [new EventEmitter("ns", true)], [on("x", h)] then [emit("x", 42)]
    invokes [h(42)] exactly once. *)
Theorem prefix_always_on_emit_per_autoPrefix_on_register :
  (∀ this type,
     getEventName this type (Some true)
     = if truthy (eventsPrefix this)
       then (eventsPrefix this ++ ":" ++ type)%string else type)
  ∧ (∀ this type,
       getEventName this type None
       = if truthy (eventsPrefix this) && autoPrefix this
         then (eventsPrefix this ++ ":" ++ type)%string else type)
  ∧ (∀ (Payload : Type) (h : Handler) (p : Payload),
       let this := state (on (constructor "ns" false) "x" h) in
       returns (on (constructor "ns" false) "x" h) = true
       ∧ events this = {["x" := VSet [h]]}
       ∧ getEventName this "x" (Some true) = "ns:x"
       ∧ emit this "x" p = mkEmission [] (ReturnThis this))
  ∧ (∀ h : Handler,
       let this := state (on (constructor "ns" true) "x" h) in
       returns (on (constructor "ns" true) "x" h) = true
       ∧ events this = {["ns:x" := VSet [h]]}
       ∧ calls (emit this "x" 42) = [Named h 42]
       ∧ returns (outcome (emit this "x" 42)) = true).
Proof.
  split_and!.
  - apply getEventName_emit.
  - apply getEventName_register.
  - intros Payload h p. by split_and!.
  - intros h. split_and!; try done.
    + rewrite emit_agrees_calls; [done | done | | done].
      apply NoDup_singleton.
    + rewrite emit_agrees; [done | done | | done].
      apply NoDup_singleton.
Qed.

(** C4.  On a well-formed emitter, [emit(type, arg)] first invokes every
    handler of [allEvents], in order, each with [(type, arg)] where
    [type] is the name as passed (with a prefix configured, not the name
    emission resolves it to); only then come the name-scoped handlers,
    each with [(arg)].  The universal handlers run also when [events] has
    nothing under the resolved name, and then no name-scoped handler
    runs and [emit] returns. *)
Theorem universal_handlers_first_with_raw_name :
  ∀ (Payload : Type) (this : EventEmitter) (type : string) (arg : Payload),
    wf this →
    let _type := getEventName this type (Some true) in
    (∃ named,
       named ⊆ handlersOf this _type
       ∧ calls (emit this type arg)
         = map (λ cb, Universal cb type arg) (allEvents this)
           ++ map (λ cb, Named cb arg) named)
    ∧ (JsObject.get (events this) _type = None →
       emit this type arg
       = mkEmission
           (map (λ cb, (Universal cb type arg, this)) (allEvents this))
           (ReturnThis this))
    ∧ (truthy (eventsPrefix this) = true → _type ≠ type).
Proof.
  intros Payload this type arg _ _type. split_and!.
  - unfold emit, handlersOf. fold _type.
    destruct (JsObject.get (events this) _type) as [[s |] |].
    + destruct (forEachNamed_calls type _type arg s this)
        as (visited & Hsub & Hcalls).
      exists visited. split; [done |]. unfold calls in *. cbn [log].
      by rewrite fmap_app, forEachAll_calls, Hcalls.
    + exists []. split; [done |]. unfold calls. cbn [log].
      by rewrite forEachAll_calls, app_nil_r.
    + exists []. split; [done |]. unfold calls. cbn [log].
      by rewrite forEachAll_calls, app_nil_r.
  - intros Hnone. unfold emit. fold _type. by rewrite Hnone.
  - intros Hp. unfold _type. rewrite getEventName_emit, Hp.
    apply prefixed_longer.
Qed.

Lemma universal_handlers_first_with_raw_name_witness :
  let this :=
    run (Payload := nat)
        [RegisterUniversal 1; Register "x" 2; RegisterUniversal 3]
        (constructor "ns" true) in
  (∃ named,
     named ⊆ handlersOf this "ns:x"
     ∧ calls (emit this "x" 7)
       = [Universal 1 "x" 7; Universal 3 "x" 7]
         ++ map (λ cb, Named cb 7) named)
  ∧ emit this "y" 7
    = mkEmission [(Universal 1 "y" 7, this); (Universal 3 "y" 7, this)]
                 (ReturnThis this)
  ∧ getEventName this "y" (Some true) ≠ "y".
Proof.
  pose (this :=
          run (Payload := nat)
              [RegisterUniversal 1; Register "x" 2; RegisterUniversal 3]
              (constructor "ns" true)).
  assert (wf this) as Hwf
    by apply (wf_onAll _ 3), (wf_on _ "x" 2), (wf_onAll _ 1), wf_constructor.
  destruct (universal_handlers_first_with_raw_name nat this "x" 7 Hwf)
    as (Hx & _ & _).
  destruct (universal_handlers_first_with_raw_name nat this "y" 7 Hwf)
    as (_ & Hy & Hraw).
  split_and!; [exact Hx | exact (Hy eq_refl) | exact (Hraw eq_refl)].
Defined.

(** C5.  On a well-formed emitter [one(type, h2)] returns, having stored
    the singleton [Set] of [h2] under the resolved name, whatever was
    registered there, and leaves the other names alone.  After
    [on("x", h1)] and [one("x", h2)] on a new emitter of any
    configuration, [emit("x", p)] invokes no handler but [h2]: it invokes
    [h2(p)] once when emission resolves ["x"] as registration did, and
    nothing otherwise; [h1], when it is another function, is not
    invoked. *)
Theorem one_replaces_handler_set :
  (∀ this type h2,
     wf this →
     ∃ this', one this type h2 = ReturnThis this'
       ∧ handlersOf this' (getEventName this type None) = [h2]
       ∧ ∀ name, name ≠ getEventName this type None →
           handlersOf this' name = handlersOf this name)
  ∧ (∀ (Payload : Type) (p : Payload) prefix auto (h1 h2 : Handler),
       let this :=
         run (Payload := Payload)
             [Register "x" h1; RegisterExclusive "x" h2]
             (constructor prefix auto) in
       let r := emit this "x" p in
       returns (on (constructor prefix auto) "x" h1) = true
       ∧ calls r = (if agrees this then [Named h2 p] else [])
       ∧ returns (outcome r) = true
       ∧ (h1 ≠ h2 → invocations h1 (calls r) = [])).
Proof.
  split.
  - intros this type h2 _. eexists. split; [reflexivity |].
    unfold handlersOf. simpl. split.
    + by rewrite get_put_eq.
    + intros name Hne. by rewrite get_put_ne.
  - intros Payload p prefix auto h1 h2 this r.
    set (e0 := constructor prefix auto) in *.
    set (n := getEventName e0 "x" None).
    assert (on e0 "x" h1
            = ReturnThis (with_events e0 (JsObject.put ∅ n (VSet [h1]))))
      as Hon.
    { unfold on, addTo, n, e0.
      by rewrite (fresh_get_x prefix auto None events). }
    assert (this
            = with_events e0
                (JsObject.put (JsObject.put ∅ n (VSet [h1])) n (VSet [h2])))
      as Hthis.
    { unfold this, run. simpl. by rewrite Hon. }
    assert (sameConfig e0 this) as Hcfg by (rewrite Hthis; by repeat split).
    assert (calls r = (if agrees this then [Named h2 p] else [])
            ∧ returns (outcome r) = true) as [Hcalls Hret].
    { unfold r. destruct (agrees this) eqn:Hag.
      - assert (getEventName this "x" (Some true) = n) as Hn.
        { rewrite <- getEventName_agrees by done.
          by apply getEventName_sameConfig. }
        assert (JsObject.get (events this) n = Some (VSet [h2])) as Hget.
        { rewrite Hthis. simpl. by rewrite get_put_eq. }
        assert (handlersOf this n = [h2]) as Hh.
        { unfold handlersOf. by rewrite Hget. }
        rewrite emit_agrees_calls, emit_agrees, Hn, Hh;
          rewrite ?Hn, ?Hh, ?Hget; try done; try apply NoDup_singleton.
        by rewrite Hthis.
      - destruct (getEventName_disagrees this "x" Hag) as [_ H2].
        assert (n = "x") as Hn.
        { apply (getEventName_disagrees e0).
          by rewrite <- (agrees_sameConfig e0 this). }
        unfold emit. rewrite H2.
        assert (JsObject.get (events this) (eventsPrefix this ++ ":" ++ "x")
                = None) as ->.
        { rewrite Hthis, Hn. simpl events.
          rewrite !get_put_ne by apply not_eq_sym, prefixed_longer.
          rewrite get_empty. by rewrite prefixed_not_inherited. }
        by rewrite Hthis. }
    split_and!; [by rewrite Hon | done | done |].
    intros Hne. rewrite Hcalls. unfold invocations.
    destruct (agrees this); [| done].
    rewrite filter_cons, decide_False; [done | by simpl].
Qed.

(** C6, as the code has it.  When [on(type, h)] returns, a second
    [on(type, h)] returns and leaves the emitter exactly as the first
    did.  If the emitter resolves names alike for registration and
    emission (no prefix, or [autoPrefix] set), a following
    [emit(type, arg)] returns and invokes [h(arg)] exactly once in its
    name-scoped pass. *)
Theorem on_twice_as_once :
  ∀ (Payload : Type) (this this1 : EventEmitter) (type : string)
    (h : Handler) (arg : Payload),
    wf this →
    on this type h = ReturnThis this1 →
    on this1 type h = ReturnThis this1
    ∧ (agrees this = true →
       namedInvocations h (calls (emit this1 type arg)) = [Named h arg]
       ∧ returns (outcome (emit this1 type arg)) = true).
Proof.
  intros Payload this this1 type h arg Hwf Hon.
  destruct (on_ReturnThis _ _ _ _ Hon) as [Hthis1 Hobj].
  set (_type := getEventName this type None) in *.
  set (s := JsSet.add h (handlersOf this _type)) in *.
  assert (JsObject.get (events this1) _type = Some (VSet s)) as Hget.
  { rewrite Hthis1. simpl. by rewrite get_put_eq. }
  assert (getEventName this1 type None = _type) as Hname
    by by rewrite Hthis1.
  assert (h ∈ s) as Hin by (apply elem_of_add; by left).
  assert (NoDup s) as Hnd by by apply NoDup_add, wf_handlersOf.
  split.
  - unfold on, addTo. rewrite Hname, Hget. simpl.
    rewrite add_present by done. rewrite put_get_id by done.
    by rewrite Hthis1.
  - intros Hag.
    assert (agrees this1 = true) as Hag1 by by rewrite Hthis1.
    assert (getEventName this1 type (Some true) = _type) as Hemit
      by by rewrite <- getEventName_agrees.
    assert (handlersOf this1 _type = s) as Hs
      by (unfold handlersOf; by rewrite Hget).
    split.
    + rewrite emit_agrees_calls; rewrite ?Hemit, ?Hs, ?Hget; try done.
      rewrite namedInvocations_app, namedInvocations_universal. simpl.
      by apply namedInvocations_once.
    + rewrite emit_agrees; rewrite ?Hemit, ?Hs, ?Hget; done.
Qed.

Lemma on_twice_as_once_witness :
  let this1 := state (on newEventEmitter "x" 1) in
  on this1 "x" 1 = ReturnThis this1
  ∧ namedInvocations 1 (calls (emit this1 "x" 7)) = [Named 1 7]
  ∧ returns (outcome (emit this1 "x" 7)) = true.
Proof.
  destruct (on_twice_as_once nat newEventEmitter
              (state (on newEventEmitter "x" 1)) "x" 1 7
              (wf_constructor _ _) eq_refl) as [Hsame Hemit].
  split; [exact Hsame | exact (Hemit eq_refl)].
Defined.

(** C6 fails as stated: on [new EventEmitter("ns", false)], after
    [on("x", h)] twice, [emit("x", p)] looks under ["ns:x"] and does not
    invoke [h] at all; and on [new EventEmitter()], when [h] is a
    universal handler as well, [emit("x", p)] invokes it twice. *)
Lemma on_twice_not_invoked_once :
  (let this :=
     run (Payload := nat) [Register "x" 1; Register "x" 1]
         (constructor "ns" false) in
   handlersOf this "x" = [1]
   ∧ calls (emit this "x" 7) = []
   ∧ returns (outcome (emit this "x" 7)) = true)
  ∧ (let this :=
       run (Payload := nat)
           [RegisterUniversal 1; Register "x" 1; Register "x" 1]
           newEventEmitter in
     calls (emit this "x" 7) = [Universal 1 "x" 7; Named 1 7]).
Proof. by split_and!. Qed.

(** C7.  An unknown name is not always harmless.  The test
    [!this.events[_type]] of [off], and [if (this.events[_type])] of
    [emit], take the member [toString] that [{}] inherits from
    [Object.prototype] for a registered [Set]: on a new emitter
    [off("toString", h)] and [emit("toString", p)] are left by a
    [TypeError].  Nothing registered is changed by either. *)
Theorem off_and_emit_raise_on_inherited_name :
  off newEventEmitter "toString" 1 = ThrowTypeError newEventEmitter
  ∧ emit newEventEmitter "toString" 7
    = mkEmission [] (ThrowTypeError newEventEmitter)
  ∧ (let this := state (on newEventEmitter "x" 1) in
     off this "toString" 2 = ThrowTypeError this
     ∧ emit this "toString" 7 = mkEmission [] (ThrowTypeError this)).
Proof. by split_and!. Qed.

(** C8.  [onAll] and [offAll] execute [return this] on every input, and
    so does [one] on a well-formed emitter.  [on], [off], [once] and
    [emit] do not: on a new emitter each is left by a [TypeError] when
    the name is that of a member of [Object.prototype]. *)
Theorem on_off_once_emit_do_not_always_return :
  (∀ this type cb, wf this → returns (one this type cb) = true)
  ∧ (∀ this cb, returns (onAll this cb) = true)
  ∧ (∀ this cb, returns (offAll this cb) = true)
  ∧ returns (on newEventEmitter "toString" 1) = false
  ∧ returns (off newEventEmitter "constructor" 1) = false
  ∧ returns (once newEventEmitter "valueOf" 1) = false
  ∧ returns (outcome (emit newEventEmitter "hasOwnProperty" 7)) = false.
Proof. by split_and!. Qed.

(** C9.  On [new EventEmitter("ns", false)] let [g] be registered
    single-shot and [h] plainly under ["ns:toString"], and [h] also as a
    universal handler.  [emit("toString", p)] invokes [h("toString", p)]
    and [g(p)]; then [this.off("toString", g)] reads the member
    [toString] of [Object.prototype] and raises, so [h(p)] is never
    invoked: [h] is invoked once, not twice. *)
Theorem universal_and_named_handler_invoked_once_when_emit_raises :
  let this :=
    run (Payload := nat)
        [RegisterOnce "ns:toString" 1; Register "ns:toString" 2;
         RegisterUniversal 2]
        (constructor "ns" false) in
  let r := emit this "toString" 7 in
  allEvents this = [2]
  ∧ handlersOf this (getEventName this "toString" (Some true)) = [1; 2]
  ∧ calls r = [Universal 2 "toString" 7; Named 1 7]
  ∧ returns (outcome r) = false
  ∧ invocations 2 (calls r) = [Universal 2 "toString" 7].
Proof. by split_and!. Qed.

(** C10.  On a well-formed emitter, when no handler is registered under
    the name an emission resolves to, [emit] leaves the emitter as it
    was: [events], [onceCallbacks] and [allEvents] are unchanged, and no
    [Set] is created under the resolved name.  Only the universal
    handlers are invoked. *)
Theorem emit_without_handlers_changes_nothing :
  ∀ (Payload : Type) (this : EventEmitter) (type : string) (arg : Payload),
    wf this →
    handlersOf this (getEventName this type (Some true)) = [] →
    state (outcome (emit this type arg)) = this
    ∧ calls (emit this type arg)
      = map (λ cb, Universal cb type arg) (allEvents this).
Proof.
  intros Payload this type arg _. unfold handlersOf, emit, calls.
  destruct (JsObject.get _ _) as [[s |] |]; [intros -> | intros _ ..];
    cbn [log outcome state forEachNamed];
    by rewrite ?app_nil_r, forEachAll_calls.
Qed.

Lemma emit_without_handlers_changes_nothing_witness :
  state (outcome (emit newEventEmitter "never-registered" 0))
  = newEventEmitter
  ∧ calls (emit newEventEmitter "never-registered" 0)
    = map (λ cb, Universal cb "never-registered" 0)
          (allEvents newEventEmitter).
Proof.
  apply (emit_without_handlers_changes_nothing
           nat newEventEmitter "never-registered" 0).
  - apply wf_constructor.
  - reflexivity.
Defined.

(** * Further properties *)

(** ** Single-shot handlers when names are resolved alike *)






(** ** Names that are not members of [Object.prototype] *)

Lemma with_events_id (this : EventEmitter) :
  with_events this (events this) = this.
Proof. by destruct this. Qed.

(** X2 (C7 where it holds).  On a well-formed emitter, unregistering
    what is not registered returns and changes nothing, when the resolved
    name is not that of a member of [Object.prototype]. *)
Theorem off_absent_changes_nothing :
  ∀ (this : EventEmitter) (type : string) (cb : Handler),
    wf this →
    JsObject.inherited (getEventName this type None) = false →
    cb ∉ handlersOf this (getEventName this type None) →
    off this type cb = ReturnThis this.
Proof.
  intros this type cb Hwf Hk Hcb. unfold off, handlersOf in *.
  destruct (JsObject.get _ _) as [[s |] |] eqn:Hget.
  - rewrite delete_absent by done. rewrite put_get_id by done.
    by rewrite with_events_id.
  - apply (wf_get_VObj _ _ (wf_events _ Hwf)) in Hget. congruence.
  - done.
Qed.

Lemma off_absent_changes_nothing_witness :
  let this := state (on newEventEmitter "x" 1) in
  off this "y" 2 = ReturnThis this ∧ off this "x" 2 = ReturnThis this.
Proof.
  split.
  - apply (off_absent_changes_nothing
             (state (on newEventEmitter "x" 1)) "y" 2).
    + apply (wf_on _ "x" 1), wf_constructor.
    + reflexivity.
    + apply not_elem_of_nil.
  - apply (off_absent_changes_nothing
             (state (on newEventEmitter "x" 1)) "x" 2).
    + apply (wf_on _ "x" 1), wf_constructor.
    + reflexivity.
    + intros H. apply list_elem_of_singleton in H. discriminate H.
Defined.

Lemma afterCall_returns (this : EventEmitter) (type _type : string)
    (cb : Handler) :
  wf this →
  JsObject.inherited (getEventName this type None) = false →
  returns (afterCall this type _type cb) = true.
Proof.
  intros Hwf Hk. unfold afterCall. rewrite onceHas_marked.
  case_bool_decide as Hin; [| done].
  unfold off. destruct (JsObject.get (events this) _) as [[s |] |] eqn:Hget.
  - simpl. unfold onceMarked in Hin.
    destruct (JsObject.get (onceCallbacks this) _type) as [[m |] |];
      [done | |]; by apply elem_of_nil in Hin.
  - apply (wf_get_VObj _ _ (wf_events _ Hwf)) in Hget. congruence.
  - unfold onceMarked in Hin.
    destruct (JsObject.get (onceCallbacks this) _type) as [[m |] |];
      [done | |]; by apply elem_of_nil in Hin.
Qed.

Lemma forEachNamed_returns {Payload : Type} (P : EventEmitter → Prop)
    (type _type : string) (arg : Payload) :
  (∀ this cb, P this →
     P (state (afterCall this type _type cb))
     ∧ returns (afterCall this type _type cb) = true) →
  ∀ entries this, P this →
    returns (outcome (forEachNamed type _type arg entries this)) = true.
Proof.
  intros Hstep entries.
  induction entries as [| cb entries IH]; intros this HP; simpl; [done |].
  destruct (live this _type cb); [| by apply IH].
  destruct (Hstep this cb HP) as [HP' Hret].
  destruct (afterCall this type _type cb) as [this' | this'];
    simpl in *; [by apply IH | done].
Qed.

(** The name an emission resolves to is that of a member of
    [Object.prototype] only if registration resolves to it as well. *)
Lemma inherited_emit_name (this : EventEmitter) (type : string) :
  JsObject.inherited (getEventName this type None) = false →
  JsObject.inherited (getEventName this type (Some true)) = false.
Proof.
  destruct (agrees this) eqn:Hag.
  - by rewrite getEventName_agrees.
  - intros _. destruct (getEventName_disagrees this type Hag) as [_ ->].
    apply prefixed_not_inherited.
Qed.

(** X3 (C8 where it holds).  On a well-formed emitter [on], [off],
    [once] and [emit] execute [return this] whenever the name
    registration resolves to is not that of a member of
    [Object.prototype]. *)
Theorem methods_return_unless_name_inherited :
  ∀ (Payload : Type) (this : EventEmitter) (type : string) (cb : Handler)
    (arg : Payload),
    wf this →
    JsObject.inherited (getEventName this type None) = false →
    returns (on this type cb) = true
    ∧ returns (off this type cb) = true
    ∧ returns (once this type cb) = true
    ∧ returns (outcome (emit this type arg)) = true.
Proof.
  intros Payload this type cb arg Hwf Hk.
  set (k := getEventName this type None) in *.
  assert (∀ obj, JsObject.wf obj → (addTo obj k cb).2 = true) as Hadd.
  { intros obj Hobj. rewrite addTo_ok.
    destruct (JsObject.get obj k) as [[s |] |] eqn:Hget; try done.
    apply (wf_get_VObj _ _ Hobj) in Hget. congruence. }
  split_and!.
  - rewrite on_returns. apply Hadd, Hwf.
  - unfold off. fold k.
    destruct (JsObject.get (events this) k) as [[s |] |] eqn:Hget; try done.
    apply (wf_get_VObj _ _ (wf_events _ Hwf)) in Hget. congruence.
  - unfold once. fold k.
    pose proof (Hadd _ (wf_events _ Hwf)) as He.
    destruct (addTo (events this) k cb) as [o ok]. simpl in He. subst ok.
    simpl. pose proof (Hadd _ (wf_onceCallbacks _ Hwf)) as Ho.
    destruct (addTo (onceCallbacks this) k cb) as [m ok]. simpl in Ho.
    by subst ok.
  - unfold emit.
    destruct (JsObject.get (events this) _) as [[s |] |] eqn:Hget;
      cbn [outcome returns]; try done.
    + apply (forEachNamed_returns (λ st, wf st ∧ sameConfig this st));
        [| split; [done | by repeat split]].
      intros st c [Hst Hcfg]. split_and!.
      * by apply wf_afterCall.
      * eapply sameConfig_trans; [done | apply afterCall_sameConfig].
      * apply afterCall_returns; [done |].
        by rewrite (getEventName_sameConfig this).
    + apply (wf_get_VObj _ _ (wf_events _ Hwf)) in Hget.
      by rewrite inherited_emit_name in Hget.
Qed.

Lemma methods_return_unless_name_inherited_witness :
  let this := state (once newEventEmitter "x" 1) in
  returns (on this "x" 2) = true
  ∧ returns (off this "x" 2) = true
  ∧ returns (once this "x" 2) = true
  ∧ returns (outcome (emit this "x" 7)) = true.
Proof.
  apply (methods_return_unless_name_inherited nat
           (state (once newEventEmitter "x" 1)) "x" 2 7).
  - apply (wf_once _ "x" 1), wf_constructor.
  - reflexivity.
Defined.

(** ** Emissions that return *)

(** The callback removes nothing but the handler it was called for from
    the [Set] under iteration. *)
Lemma afterCall_keeps_others (this : EventEmitter) (type _type : string)
    (cb x : Handler) :
  x ≠ cb → x ∈ handlersOf this _type →
  x ∈ handlersOf (state (afterCall this type _type cb)) _type.
Proof.
  intros Hne Hx. unfold afterCall. destruct (onceHas this _type cb); [| done].
  assert (x ∈ handlersOf (state (off this type cb)) _type) as Hoff.
  { unfold off. destruct (JsObject.get (events this) _) as [[s |] |] eqn:Hget;
      simpl; try done.
    unfold handlersOf in *. simpl. rewrite get_put. case_decide as Hk; [| done].
    rewrite <- Hk, Hget in Hx. by apply elem_of_delete. }
  destruct (off this type cb) as [this' | this']; simpl in *; [| done].
  by destruct (JsObject.get (onceCallbacks this') _type) as [[m |] |].
Qed.

(** A pass that returns has visited every entry of the [Set] it started
    on, in order: no entry is deleted before its turn. *)
Lemma forEachNamed_returns_calls {Payload : Type} (type _type : string)
    (arg : Payload) (entries : list Handler) (this : EventEmitter) :
  NoDup entries →
  entries ⊆ handlersOf this _type →
  returns (outcome (forEachNamed type _type arg entries this)) = true →
  calls (forEachNamed type _type arg entries this)
  = map (λ cb, Named cb arg) entries.
Proof.
  revert this.
  induction entries as [| cb entries IH]; intros this Hnd Hsub Hret;
    [done |].
  apply NoDup_cons in Hnd as [Hcb Hnd]. simpl in *.
  rewrite live_handlers, bool_decide_eq_true_2 in *
    by (apply Hsub; apply list_elem_of_here).
  pose proof (λ x Hne Hx, afterCall_keeps_others this type _type cb x Hne Hx)
    as Hkeep.
  destruct (afterCall this type _type cb) as [this' | this'];
    simpl in *; [| done].
  unfold calls in *. cbn [log]. rewrite fmap_cons. cbn [fst].
  rewrite IH; [done | done | | done].
  intros x Hx. apply Hkeep; [by intros -> | apply Hsub; by right].
Qed.

Lemma emit_returns_calls {Payload : Type} (this : EventEmitter)
    (type : string) (arg : Payload) :
  wf this →
  returns (outcome (emit this type arg)) = true →
  calls (emit this type arg)
  = map (λ cb, Universal cb type arg) (allEvents this)
    ++ map (λ cb, Named cb arg)
           (handlersOf this (getEventName this type (Some true))).
Proof.
  intros Hwf. pose proof (wf_handlersOf this
    (getEventName this type (Some true)) Hwf) as Hnd.
  unfold emit, handlersOf in *.
  destruct (JsObject.get _ _) as [[s |] |] eqn:Hget;
    cbn [outcome returns]; try done.
  - intros Hret. unfold calls in *. cbn [log].
    rewrite fmap_app, forEachAll_calls. f_equal.
    apply forEachNamed_returns_calls; [done | | done].
    unfold handlersOf. by rewrite Hget.
  - intros _. unfold calls. cbn [log].
    by rewrite forEachAll_calls, app_nil_r.
Qed.

Lemma invocations_once {Payload : Type} (h : Handler)
    (f : Handler → Call Payload) (l : list Handler) :
  (∀ cb, callee (f cb) = cb) →
  NoDup l → h ∈ l → invocations h (map f l) = [f h].
Proof.
  intros Hf. unfold invocations.
  induction l as [| cb l IH]; intros Hnd Hin.
  - by apply elem_of_nil in Hin.
  - apply NoDup_cons in Hnd as [Hcb Hnd]. simpl.
    destruct (decide (cb = h)) as [-> | Hne].
    + rewrite filter_cons, decide_True by apply Hf. f_equal.
      clear IH Hin Hnd. induction l as [| y l IH]; [done |].
      apply not_elem_of_cons in Hcb as [Hy Hl]. simpl.
      rewrite filter_cons, decide_False by (rewrite Hf; congruence).
      by apply IH.
    + rewrite filter_cons, decide_False by (rewrite Hf; congruence).
      apply IH; [done |]. apply elem_of_cons in Hin as [-> | Hin]; done.
Qed.

(** X4 (C9 for the emissions that return).  On a well-formed emitter, a
    function that is both a universal handler and registered under the
    name [emit(type, arg)] resolves to is invoked exactly twice by an
    emission that returns: first with the raw name and the payload, then
    with the payload alone. *)
Theorem universal_and_named_handler_invoked_twice :
  ∀ (Payload : Type) (this : EventEmitter) (type : string) (arg : Payload)
    (h : Handler),
    wf this →
    h ∈ allEvents this →
    h ∈ handlersOf this (getEventName this type (Some true)) →
    returns (outcome (emit this type arg)) = true →
    invocations h (calls (emit this type arg))
    = [Universal h type arg; Named h arg].
Proof.
  intros Payload this type arg h Hwf Hall Hnamed Hret.
  rewrite emit_returns_calls by done.
  unfold invocations. rewrite filter_app.
  change (invocations h (map (λ cb, Universal cb type arg) (allEvents this))
          ++ invocations h
               (map (λ cb, Named cb arg)
                    (handlersOf this (getEventName this type (Some true))))
          = [Universal h type arg; Named h arg]).
  rewrite !invocations_once; try done.
  - by apply wf_handlersOf.
  - by apply wf_allEvents.
Qed.

Lemma universal_and_named_handler_invoked_twice_witness :
  let this :=
    run (Payload := nat) [Register "x" 1; RegisterUniversal 1]
        newEventEmitter in
  invocations 1 (calls (emit this "x" 7)) = [Universal 1 "x" 7; Named 1 7].
Proof.
  apply (universal_and_named_handler_invoked_twice nat
           (run (Payload := nat) [Register "x" 1; RegisterUniversal 1]
                newEventEmitter) "x" 7 1).
  - apply (wf_onAll _ 1), (wf_on _ "x" 1), wf_constructor.
  - apply list_elem_of_here.
  - apply list_elem_of_here.
  - reflexivity.
Defined.

(** ** Emission without single-shot handlers *)

Lemma forEachNamed_no_marks {Payload : Type} (type _type : string)
    (arg : Payload) (entries : list Handler) (this : EventEmitter) :
  entries ⊆ handlersOf this _type →
  (∀ x, x ∈ entries → x ∉ onceMarked this _type) →
  forEachNamed type _type arg entries this
  = mkEmission (map (λ cb, (Named cb arg, this)) entries) (ReturnThis this).
Proof.
  induction entries as [| cb entries IH]; intros Hsub Hfree; [done |].
  cbn [forEachNamed].
  rewrite live_handlers, bool_decide_eq_true_2
    by (apply Hsub, list_elem_of_here).
  unfold afterCall.
  rewrite onceHas_marked, bool_decide_eq_false_2
    by (apply Hfree, list_elem_of_here).
  rewrite IH; [done | |].
  - intros x Hx. apply Hsub. by right.
  - intros x Hx. apply Hfree. by right.
Qed.

(** X5.  On a well-formed emitter, when the name [emit(type, arg)]
    resolves to is not that of a member of [Object.prototype] and no
    handler registered under it is marked single-shot, [emit] returns,
    leaves the emitter exactly as it was, and invokes the universal
    handlers and then every handler registered under the name, each once
    and in the order of the [Set]s.  This holds whatever the prefix
    configuration. *)
Theorem emit_without_marks_changes_nothing :
  ∀ (Payload : Type) (this : EventEmitter) (type : string) (arg : Payload),
    wf this →
    JsObject.inherited (getEventName this type (Some true)) = false →
    (∀ x, x ∈ handlersOf this (getEventName this type (Some true)) →
          x ∉ onceMarked this (getEventName this type (Some true))) →
    emit this type arg
    = mkEmission
        (map (λ cb, (Universal cb type arg, this)) (allEvents this)
           ++ map (λ cb, (Named cb arg, this))
                  (handlersOf this (getEventName this type (Some true))))
        (ReturnThis this).
Proof.
  intros Payload this type arg Hwf Hk Hfree. unfold emit.
  set (_type := getEventName this type (Some true)) in *.
  unfold forEachAll.
  destruct (JsObject.get (events this) _type) as [[s |] |] eqn:Hget.
  - assert (handlersOf this _type = s) as Hs
      by (unfold handlersOf; by rewrite Hget).
    rewrite Hs in *. rewrite forEachNamed_no_marks; [done | | done].
    by rewrite Hs.
  - apply (wf_get_VObj _ _ (wf_events _ Hwf)) in Hget. congruence.
  - unfold handlersOf. rewrite Hget. simpl. by rewrite app_nil_r.
Qed.

Lemma emit_without_marks_changes_nothing_witness :
  let this :=
    run (Payload := nat)
        [RegisterUniversal 9; Register "ns:x" 1; Register "ns:x" 2]
        (constructor "ns" false) in
  emit this "x" 7
  = mkEmission
      [(Universal 9 "x" 7, this); (Named 1 7, this); (Named 2 7, this)]
      (ReturnThis this).
Proof.
  pose (this :=
          run (Payload := nat)
              [RegisterUniversal 9; Register "ns:x" 1; Register "ns:x" 2]
              (constructor "ns" false)).
  assert (wf this) as Hwf
    by apply (wf_on _ "ns:x" 2), (wf_on _ "ns:x" 1), (wf_onAll _ 9),
         wf_constructor.
  refine (emit_without_marks_changes_nothing nat this "x" 7 Hwf eq_refl _).
  intros x _. apply not_elem_of_nil.
Defined.

(** ** Registration order and unregistration *)

Lemma add_absent (cb : Handler) (s : JsSet) :
  cb ∉ s → JsSet.add cb s = s ++ [cb].
Proof. intros Hnin. unfold JsSet.add. by rewrite decide_False. Qed.

Lemma delete_add_absent (cb : Handler) (s : JsSet) :
  cb ∉ s → JsSet.delete cb (JsSet.add cb s) = s.
Proof.
  intros Hnin. rewrite add_absent by done. unfold JsSet.delete.
  rewrite filter_app. fold (JsSet.delete cb s). rewrite delete_absent by done.
  rewrite filter_cons, decide_False by (intros H; by apply H).
  by rewrite filter_nil, app_nil_r.
Qed.



(** X7.  On a well-formed emitter, registering by [on(type, h)] a handler
    that was not registered under the name and then calling
    [off(type, h)] returns and leaves under every name the handlers
    there were; the emitter is exactly as before when a [Set] already
    existed under the name, and otherwise keeps the empty [Set] that
    [on] created. *)
Theorem on_then_off_restores_handlers :
  ∀ (this this1 : EventEmitter) (type : string) (h : Handler),
    wf this →
    on this type h = ReturnThis this1 →
    h ∉ handlersOf this (getEventName this type None) →
    let k := getEventName this type None in
    ∃ this2,
      off this1 type h = ReturnThis this2
      ∧ (∀ name, handlersOf this2 name = handlersOf this name)
      ∧ onceCallbacks this2 = onceCallbacks this
      ∧ allEvents this2 = allEvents this
      ∧ ((∃ s, JsObject.get (events this) k = Some (VSet s)) → this2 = this)
      ∧ (JsObject.get (events this) k = None →
         JsObject.get (events this2) k = Some (VSet [])).
Proof.
  intros this this1 type h Hwf Hon Hnew k.
  destruct (on_ReturnThis _ _ _ _ Hon) as [Hthis1 Hobj]. fold k in Hthis1, Hobj.
  fold k in Hnew.
  assert (off this1 type h
          = ReturnThis
              (with_events this
                 (JsObject.put (events this) k (VSet (handlersOf this k)))))
    as Hoff.
  { unfold off. rewrite Hthis1.
    change (getEventName (with_events this _) type None) with k.
    simpl events. rewrite get_put_eq. rewrite delete_add_absent by done.
    f_equal. unfold with_events. simpl. f_equal.
    unfold JsObject.put. apply insert_insert_eq. }
  eexists. split; [exact Hoff |]. split_and!; try done.
  - intros name. unfold handlersOf at 1. simpl. rewrite get_put.
    case_decide as Hname; [by subst name | done].
  - intros [s Hs]. unfold handlersOf. rewrite Hs.
    rewrite put_get_id by done. apply with_events_id.
  - intros Hnone. simpl. rewrite get_put_eq. unfold handlersOf.
    by rewrite Hnone.
Qed.

Lemma on_then_off_restores_handlers_witness :
  let this := state (on newEventEmitter "x" 1) in
  ∃ this2,
    off (state (on this "y" 2)) "y" 2 = ReturnThis this2
    ∧ (∀ name, handlersOf this2 name = handlersOf this name)
    ∧ onceCallbacks this2 = onceCallbacks this
    ∧ allEvents this2 = allEvents this
    ∧ ((∃ s, JsObject.get (events this) "y" = Some (VSet s)) → this2 = this)
    ∧ (JsObject.get (events this) "y" = None →
       JsObject.get (events this2) "y" = Some (VSet [])).
Proof.
  refine (on_then_off_restores_handlers (state (on newEventEmitter "x" 1))
            (state (on (state (on newEventEmitter "x" 1)) "y" 2)) "y" 2
            _ eq_refl _).
  - apply (wf_on _ "x" 1), wf_constructor.
  - apply not_elem_of_nil.
Defined.

(** ** Universal handlers *)

(** The invocations of an emission: the universal ones, then name-scoped
    ones only, whether it returns or raises. *)
Lemma emit_calls_split {Payload : Type} (this : EventEmitter)
    (type : string) (arg : Payload) :
  ∃ named,
    calls (emit this type arg)
    = map (λ cb, Universal cb type arg) (allEvents this)
      ++ map (λ cb, Named cb arg) named.
Proof.
  unfold emit.
  destruct (JsObject.get (events this) _) as [[s |] |].
  - destruct (forEachNamed_calls type (getEventName this type (Some true))
                arg s this) as (visited & _ & Hcalls).
    exists visited. unfold calls in *. cbn [log].
    by rewrite fmap_app, forEachAll_calls, Hcalls.
  - exists []. unfold calls. cbn [log].
    by rewrite forEachAll_calls, app_nil_r.
  - exists []. unfold calls. cbn [log].
    by rewrite forEachAll_calls, app_nil_r.
Qed.

(** The universal invocations of [cb] among [cs]. *)
Lemma universal_invocations_split {Payload : Type} (cb : Handler)
    (type : string) (arg : Payload) (all named : list Handler) :
  filter (λ c, isNamed c = false ∧ callee c = cb)
         (map (λ x, Universal x type arg) all
            ++ map (λ x, Named x arg) named)
  = map (λ x, Universal x type arg) (filter (λ x, x = cb) all).
Proof.
  rewrite filter_app.
  assert (filter (λ c : Call Payload, isNamed c = false ∧ callee c = cb)
                 (map (λ x, Named x arg) named) = []) as ->.
  { induction named as [| x named IH]; [done |]. simpl.
    rewrite filter_cons, decide_False; [done |]. by intros [? _]. }
  rewrite app_nil_r.
  induction all as [| x all IH]; [done |]. simpl.
  rewrite !filter_cons. destruct (decide (x = cb)) as [-> | Hne].
  - rewrite decide_True by done. simpl. by rewrite IH.
  - rewrite decide_False by (simpl; tauto). done.
Qed.

Lemma filter_eq_absent (cb : Handler) (s : JsSet) :
  cb ∉ s → filter (λ x, x = cb) s = [].
Proof.
  induction s as [| x s IH]; [done |].
  intros [Hne Hnin]%not_elem_of_cons.
  rewrite filter_cons, decide_False by congruence. by apply IH.
Qed.

Lemma filter_eq_present (cb : Handler) (s : JsSet) :
  NoDup s → cb ∈ s → filter (λ x, x = cb) s = [cb].
Proof.
  induction s as [| x s IH]; intros Hnd Hin.
  - by apply elem_of_nil in Hin.
  - apply NoDup_cons in Hnd as [Hx Hnd].
    destruct (decide (x = cb)) as [-> | Hne].
    + rewrite filter_cons, decide_True by done.
      by rewrite filter_eq_absent.
    + rewrite filter_cons, decide_False by done.
      apply IH; [done |]. apply elem_of_cons in Hin as [-> | Hin]; done.
Qed.

(** X8.  On a well-formed emitter: [onAll(cb)] twice is [onAll(cb)]
    once; [offAll(cb)] of a handler that is not universal changes
    nothing; [offAll(cb)] after [onAll(cb)] of a handler that was not
    universal gives back the emitter exactly.  After [onAll(cb)] every
    emission, whatever the name and whether it returns or raises,
    invokes [cb] exactly once as a universal handler, with the name as
    passed and the payload; after [offAll(cb)] no emission invokes it as
    a universal handler. *)
Theorem onAll_offAll_register_universally :
  ∀ (Payload : Type) (this : EventEmitter) (cb : Handler) (type : string)
    (arg : Payload),
    wf this →
    let universal (st : EventEmitter) :=
      filter (λ c, isNamed c = false ∧ callee c = cb)
             (calls (emit st type arg)) in
    onAll (state (onAll this cb)) cb = onAll this cb
    ∧ (cb ∉ allEvents this → offAll this cb = ReturnThis this)
    ∧ (cb ∉ allEvents this →
       offAll (state (onAll this cb)) cb = ReturnThis this)
    ∧ universal (state (onAll this cb)) = [Universal cb type arg]
    ∧ universal (state (offAll this cb)) = [].
Proof.
  intros Payload this cb type arg Hwf universal.
  assert (∀ st, wf st →
            universal st
            = map (λ x, Universal x type arg)
                  (filter (λ x, x = cb) (allEvents st))) as Huniv.
  { intros st Hst. unfold universal.
    destruct (emit_calls_split st type arg) as [named ->].
    apply universal_invocations_split. }
  split_and!.
  - unfold onAll. cbn [state allEvents with_allEvents].
    rewrite (add_present cb (JsSet.add cb (allEvents this)))
      by (apply elem_of_add; by left).
    done.
  - intros Hnin. unfold offAll. rewrite delete_absent by done.
    by destruct this.
  - intros Hnin. unfold offAll, onAll. cbn [state allEvents with_allEvents].
    rewrite delete_add_absent by done. by destruct this.
  - rewrite Huniv by by apply wf_onAll. simpl.
    rewrite filter_eq_present; [done | |].
    + by apply NoDup_add, wf_allEvents.
    + apply elem_of_add. by left.
  - rewrite Huniv by by apply wf_offAll. simpl.
    rewrite filter_eq_absent; [done |].
    rewrite elem_of_delete. tauto.
Qed.

Lemma onAll_offAll_register_universally_witness :
  let this := state (onAll (state (on newEventEmitter "x" 1)) 2) in
  let universal (st : EventEmitter) :=
    filter (λ c, isNamed c = false ∧ callee c = 3)
           (calls (emit st "toString" 7)) in
  onAll (state (onAll this 3)) 3 = onAll this 3
  ∧ offAll this 3 = ReturnThis this
  ∧ offAll (state (onAll this 3)) 3 = ReturnThis this
  ∧ universal (state (onAll this 3)) = [Universal 3 "toString" 7]
  ∧ universal (state (offAll this 3)) = [].
Proof.
  pose (this := state (onAll (state (on newEventEmitter "x" 1)) 2)).
  assert (wf this) as Hwf
    by apply (wf_onAll _ 2), (wf_on _ "x" 1), wf_constructor.
  assert (3 ∉ allEvents this) as Hnin.
  { intros H. apply list_elem_of_singleton in H. discriminate H. }
  destruct (onAll_offAll_register_universally nat this 3 "toString" 7 Hwf)
    as (H1 & H2 & H3 & H4 & H5).
  split_and!; [exact H1 | exact (H2 Hnin) | exact (H3 Hnin)
               | exact H4 | exact H5].
Defined.

(** ** Single-shot marks that [on] finds in place *)

(** X9.  [on] does not clear a single-shot mark.  On a well-formed
    emitter that resolves names alike for registration and emission, if
    [h] is marked single-shot under the resolved name (also by a mark
    that [off] or [one] left behind) and [on(type, h)] returns, then the
    next [emit(type, arg)] returns, invokes [h(arg)] once and
    unregisters [h]. *)
Theorem on_keeps_single_shot_mark :
  ∀ (Payload : Type) (this this1 : EventEmitter) (type : string)
    (h : Handler) (arg : Payload),
    wf this →
    agrees this = true →
    h ∈ onceMarked this (getEventName this type None) →
    on this type h = ReturnThis this1 →
    h ∈ handlersOf this1 (getEventName this type None)
    ∧ returns (outcome (emit this1 type arg)) = true
    ∧ namedInvocations h (calls (emit this1 type arg)) = [Named h arg]
    ∧ (h ∉ handlersOf (state (outcome (emit this1 type arg)))
                      (getEventName this type None)).
Proof.
  intros Payload this this1 type h arg Hwf Hag Hmark Hon.
  pose proof (wf_on this type h Hwf) as Hwf1. rewrite Hon in Hwf1.
  simpl in Hwf1.
  destruct (on_ReturnThis _ _ _ _ Hon) as [Hthis1 Hobj].
  set (k := getEventName this type None) in *.
  assert (getEventName this1 type (Some true) = k) as Hk1.
  { rewrite Hthis1. change (getEventName this type (Some true) = k).
    by rewrite <- getEventName_agrees. }
  assert (agrees this1 = true) as Hag1 by by rewrite Hthis1.
  assert (JsObject.get (events this1) k
          = Some (VSet (JsSet.add h (handlersOf this k)))) as Hget.
  { rewrite Hthis1. simpl. by rewrite get_put_eq. }
  assert (h ∈ handlersOf this1 k) as Hin.
  { unfold handlersOf. rewrite Hget. apply elem_of_add. by left. }
  assert (h ∈ onceMarked this1 k) as Hmark1 by by rewrite Hthis1.
  assert (JsObject.get (events this1) k ≠ Some VObj) as Hobj1
    by by rewrite Hget.
  split_and!.
  - done.
  - rewrite emit_agrees; rewrite ?Hk1; try done. by apply wf_handlersOf.
  - rewrite emit_agrees_calls; rewrite ?Hk1; try done;
      [| by apply wf_handlersOf].
    rewrite namedInvocations_app, namedInvocations_universal. simpl.
    apply namedInvocations_once; [by apply wf_handlersOf | done].
  - rewrite emit_agrees; rewrite ?Hk1; try done;
      [| by apply wf_handlersOf].
    simpl. rewrite handlersOf_sweep. tauto.
Qed.

Lemma on_keeps_single_shot_mark_witness :
  let this :=
    run (Payload := nat) [RegisterOnce "x" 1; Unregister "x" 1]
        newEventEmitter in
  let this1 := state (on this "x" 1) in
  1 ∈ handlersOf this1 "x"
  ∧ returns (outcome (emit this1 "x" 7)) = true
  ∧ namedInvocations 1 (calls (emit this1 "x" 7)) = [Named 1 7]
  ∧ (1 ∉ handlersOf (state (outcome (emit this1 "x" 7))) "x").
Proof.
  pose (this :=
          run (Payload := nat) [RegisterOnce "x" 1; Unregister "x" 1]
              newEventEmitter).
  refine (on_keeps_single_shot_mark nat this (state (on this "x" 1)) "x" 1 7
            _ eq_refl _ eq_refl).
  - apply (wf_off _ "x" 1), (wf_once _ "x" 1), wf_constructor.
  - apply list_elem_of_here.
Defined.

(** ** Emission with a prefix and without [autoPrefix] *)

(** The callback when registration resolves [type] to another name [k]
    than the one under iteration: a handler marked single-shot loses its
    mark and is deleted from the [Set] under [k]. *)
Lemma afterCall_disagrees (this : EventEmitter) (type _type k : string)
    (cb : Handler) :
  getEventName this type None = k →
  k ≠ _type →
  wf this →
  JsObject.inherited k = false →
  ∃ this2,
    afterCall this type _type cb = ReturnThis this2
    ∧ handlersOf this2 _type = handlersOf this _type
    ∧ onceMarked this2 _type = JsSet.delete cb (onceMarked this _type)
    ∧ handlersOf this2 k
      = if bool_decide (cb ∈ onceMarked this _type)
        then JsSet.delete cb (handlersOf this k)
        else handlersOf this k.
Proof.
  intros Hk Hne Hwf Hinh. unfold afterCall. rewrite onceHas_marked.
  case_bool_decide as Hin.
  - assert (∃ m, JsObject.get (onceCallbacks this) _type = Some (VSet m)
                 ∧ onceMarked this _type = m) as (m & Hm & Hom).
    { unfold onceMarked in *.
      destruct (JsObject.get (onceCallbacks this) _type) as [[m |] |];
        [by eauto | |]; by apply elem_of_nil in Hin. }
    unfold off. rewrite Hk.
    destruct (JsObject.get (events this) k) as [[s |] |] eqn:Hget.
    + simpl. rewrite Hm. eexists. split; [done |].
      unfold handlersOf, onceMarked. simpl.
      rewrite get_put_ne, !get_put_eq, Hget, Hm by done. done.
    + apply (wf_get_VObj _ _ (wf_events _ Hwf)) in Hget. congruence.
    + rewrite Hm. eexists. split; [done |].
      unfold handlersOf, onceMarked. simpl.
      rewrite get_put_eq, Hget, Hm. done.
  - exists this. split_and!; try done. by rewrite delete_absent.
Qed.

Lemma forEachNamed_disagrees {Payload : Type} (type _type k : string)
    (arg : Payload) (entries : list Handler) (this : EventEmitter) :
  getEventName this type None = k →
  k ≠ _type →
  wf this →
  JsObject.inherited k = false →
  let this' := state (outcome (forEachNamed type _type arg entries this)) in
  returns (outcome (forEachNamed type _type arg entries this)) = true
  ∧ handlersOf this' _type = handlersOf this _type
  ∧ (∀ x, x ∈ onceMarked this' _type
          ↔ x ∈ onceMarked this _type
            ∧ ¬ (x ∈ entries ∧ live this _type x = true))
  ∧ (∀ x, x ∈ handlersOf this' k
          ↔ x ∈ handlersOf this k
            ∧ ¬ (x ∈ entries ∧ live this _type x = true
                 ∧ x ∈ onceMarked this _type)).
Proof.
  revert this.
  induction entries as [| cb entries IH]; intros this Hk Hne Hwf Hinh.
  - simpl. split_and!; try done.
    + intros x. rewrite elem_of_nil. tauto.
    + intros x. rewrite elem_of_nil. tauto.
  - cbn [forEachNamed].
    destruct (live this _type cb) eqn:Hlive.
    + destruct (afterCall_disagrees this type _type k cb Hk Hne Hwf Hinh)
        as (this2 & Hcall & Hsame & Hmarks & Hraw).
      rewrite Hcall. cbn [outcome state].
      assert (getEventName this2 type None = k) as Hk2.
      { pose proof (afterCall_sameConfig this type _type cb) as Hcfg.
        rewrite Hcall in Hcfg. simpl in Hcfg.
        by rewrite (getEventName_sameConfig this). }
      assert (wf this2) as Hwf2.
      { pose proof (wf_afterCall this type _type cb Hwf) as H.
        by rewrite Hcall in H. }
      assert (∀ x, live this2 _type x = live this _type x) as Hlive2.
      { intros x. by rewrite !live_handlers, Hsame. }
      destruct (IH this2 Hk2 Hne Hwf2 Hinh) as (Hret & Hh & Hm & Hr).
      split_and!.
      * done.
      * by rewrite Hh.
      * intros x. rewrite Hm, Hmarks, Hlive2, elem_of_delete, elem_of_cons.
        destruct (decide (x = cb)) as [-> | Hx]; tauto.
      * intros x. rewrite Hr, Hraw, Hmarks, Hlive2, elem_of_cons.
        destruct (decide (x = cb)) as [-> | Hx];
          case_bool_decide; rewrite ?elem_of_delete; tauto.
    + destruct (IH this Hk Hne Hwf Hinh) as (Hret & Hh & Hm & Hr).
      split_and!; try done.
      * intros x. rewrite Hm, elem_of_cons.
        split; intros [H1 H2]; (split; [done |]).
        -- intros ([-> | H3] & H4); [congruence | tauto].
        -- tauto.
      * intros x. rewrite Hr, elem_of_cons.
        split; intros [H1 H2]; (split; [done |]).
        -- intros ([-> | H3] & H4 & H5); [congruence | tauto].
        -- tauto.
Qed.

(** X10.  On a well-formed emitter with a prefix and without
    [autoPrefix], when [type] is not the name of a member of
    [Object.prototype], [emit(type, arg)] returns and invokes every
    handler registered under the prefixed name, but unregisters none of
    them: the [Set] under the prefixed name is left as it was.  The
    handlers it invoked lose their single-shot marks under the prefixed
    name, and those that had one are unregistered under the raw name
    [type] instead. *)
Theorem emit_without_autoPrefix_unregisters_under_raw_name :
  ∀ (Payload : Type) (this : EventEmitter) (type : string) (arg : Payload),
    wf this →
    agrees this = false →
    JsObject.inherited type = false →
    let _type := getEventName this type (Some true) in
    let this' := state (outcome (emit this type arg)) in
    returns (outcome (emit this type arg)) = true
    ∧ calls (emit this type arg)
      = map (λ cb, Universal cb type arg) (allEvents this)
        ++ map (λ cb, Named cb arg) (handlersOf this _type)
    ∧ handlersOf this' _type = handlersOf this _type
    ∧ (∀ x, x ∈ onceMarked this' _type
            ↔ x ∈ onceMarked this _type ∧ x ∉ handlersOf this _type)
    ∧ (∀ x, x ∈ handlersOf this' type
            ↔ x ∈ handlersOf this type
              ∧ ¬ (x ∈ handlersOf this _type ∧ x ∈ onceMarked this _type)).
Proof.
  intros Payload this type arg Hwf Hag Hinh _type this'.
  destruct (getEventName_disagrees this type Hag) as [Hk Hemit].
  assert (type ≠ _type) as Hne.
  { unfold _type. rewrite Hemit. apply not_eq_sym, prefixed_longer. }
  assert (returns (outcome (emit this type arg)) = true
          ∧ handlersOf this' _type = handlersOf this _type
          ∧ (∀ x, x ∈ onceMarked this' _type
                  ↔ x ∈ onceMarked this _type
                    ∧ ¬ (x ∈ handlersOf this _type
                         ∧ live this _type x = true))
          ∧ (∀ x, x ∈ handlersOf this' type
                  ↔ x ∈ handlersOf this type
                    ∧ ¬ (x ∈ handlersOf this _type
                         ∧ live this _type x = true
                         ∧ x ∈ onceMarked this _type)))
    as (Hret & Hsame & Hmarks & Hraw).
  { unfold this', emit. fold _type.
    destruct (JsObject.get (events this) _type) as [[s |] |] eqn:Hget.
    - assert (handlersOf this _type = s) as Hs
        by (unfold handlersOf; by rewrite Hget).
      cbn [outcome].
      pose proof (forEachNamed_disagrees type _type type arg s this
                    Hk Hne Hwf Hinh) as H.
      cbv zeta in H. rewrite Hs in H. rewrite ?Hs. exact H.
    - apply (wf_get_VObj _ _ (wf_events _ Hwf)) in Hget.
      unfold _type in Hget. rewrite Hemit in Hget.
      by rewrite prefixed_not_inherited in Hget.
    - assert (handlersOf this _type = []) as Hs
        by (unfold handlersOf; by rewrite Hget).
      cbn [outcome state]. rewrite ?Hs. split_and!.
      + done.
      + done.
      + intros x. rewrite elem_of_nil. tauto.
      + intros x. rewrite elem_of_nil. tauto. }
  split_and!.
  - done.
  - by apply emit_returns_calls.
  - done.
  - intros x. rewrite Hmarks, live_handlers.
    rewrite bool_decide_eq_true. tauto.
  - intros x. rewrite Hraw, live_handlers.
    rewrite bool_decide_eq_true. tauto.
Qed.

Lemma emit_without_autoPrefix_unregisters_under_raw_name_witness :
  let this :=
    run (Payload := nat)
        [RegisterOnce "ns:x" 1; Register "x" 1; Register "ns:x" 2]
        (constructor "ns" false) in
  let this' := state (outcome (emit this "x" 7)) in
  returns (outcome (emit this "x" 7)) = true
  ∧ calls (emit this "x" 7)
    = map (λ cb, Universal cb "x" 7) (allEvents this)
      ++ map (λ cb, Named cb 7) (handlersOf this "ns:x")
  ∧ handlersOf this' "ns:x" = handlersOf this "ns:x"
  ∧ (∀ x, x ∈ onceMarked this' "ns:x"
          ↔ x ∈ onceMarked this "ns:x" ∧ x ∉ handlersOf this "ns:x")
  ∧ (∀ x, x ∈ handlersOf this' "x"
          ↔ x ∈ handlersOf this "x"
            ∧ ¬ (x ∈ handlersOf this "ns:x" ∧ x ∈ onceMarked this "ns:x")).
Proof.
  pose (this :=
          run (Payload := nat)
              [RegisterOnce "ns:x" 1; Register "x" 1; Register "ns:x" 2]
              (constructor "ns" false)).
  refine (emit_without_autoPrefix_unregisters_under_raw_name nat this "x" 7
            _ eq_refl eq_refl).
  apply (wf_on _ "ns:x" 2), (wf_on _ "x" 1), (wf_once _ "ns:x" 1),
    wf_constructor.
Defined.

(** ** Which registrations an emission reaches *)

Lemma string_app_inv_head (p s1 s2 : string) :
  (p ++ s1)%string = (p ++ s2)%string → s1 = s2.
Proof.
  induction p as [| c p IH]; simpl; [done |]. intros [= H]. by apply IH.
Qed.

Lemma getEventName_inj (this : EventEmitter) (t1 t2 : string)
    (usePrefix : option bool) :
  getEventName this t1 usePrefix = getEventName this t2 usePrefix → t1 = t2.
Proof.
  unfold getEventName. destruct (_ && _); [| done].
  intros H%string_app_inv_head. by apply (string_app_inv_head ":") in H.
Qed.

(** X11.  Name resolution keeps distinct names apart, and decides which
    registrations an emission reaches: handlers registered under
    [type'] are those looked up by [emit(type, arg)] exactly when
    [type'] is [type] itself, on an emitter with no prefix or with
    [autoPrefix], and exactly when [type'] is the prefix, a colon and
    [type] written out, on an emitter with a prefix and without
    [autoPrefix]. *)
Theorem registration_reached_by_emission :
  (∀ this t1 t2 usePrefix,
     getEventName this t1 usePrefix = getEventName this t2 usePrefix ↔
     t1 = t2)
  ∧ (∀ this type type',
       getEventName this type' None = getEventName this type (Some true) ↔
       type' = if agrees this
               then type
               else (eventsPrefix this ++ ":" ++ type)%string).
Proof.
  split.
  - intros this t1 t2 u. split; [apply getEventName_inj | by intros ->].
  - intros this type type'. destruct (agrees this) eqn:Hag.
    + rewrite <- (getEventName_agrees this type) by done.
      split; [apply getEventName_inj | by intros ->].
    + destruct (getEventName_disagrees this type Hag) as [_ ->].
      by destruct (getEventName_disagrees this type' Hag) as [-> _].
Qed.

(** ** When [on] and [off] raise *)

(** X12.  On a well-formed emitter, [on(type, cb)] and [off(type, cb)]
    raise exactly when the resolved name is that of a member of
    [Object.prototype] and [events] holds no [Set] under it.  A call
    that raises leaves every registration as it was.  After
    [one(type, g)] the name holds a [Set], so [on] and [off] of the same
    [type] return whatever the name. *)
Theorem on_off_raise_iff_inherited_unshadowed :
  ∀ (this : EventEmitter) (type : string) (cb g : Handler),
    wf this →
    let k := getEventName this type None in
    let unshadowed :=
      JsObject.inherited k = true
      ∧ ∀ s, JsObject.get (events this) k ≠ Some (VSet s) in
    (returns (on this type cb) = false ↔ unshadowed)
    ∧ (returns (off this type cb) = false ↔ unshadowed)
    ∧ (returns (on this type cb) = false →
       (∀ name, handlersOf (state (on this type cb)) name
                = handlersOf this name)
       ∧ onceCallbacks (state (on this type cb)) = onceCallbacks this
       ∧ allEvents (state (on this type cb)) = allEvents this)
    ∧ (returns (off this type cb) = false →
       state (off this type cb) = this)
    ∧ returns (on (state (one this type g)) type cb) = true
    ∧ returns (off (state (one this type g)) type cb) = true.
Proof.
  intros this type cb g Hwf k unshadowed.
  assert (JsObject.get (events this) k = Some VObj ↔ unshadowed) as Hobj.
  { unfold unshadowed. split.
    - intros Hget. split; [by eapply wf_get_VObj, Hget; apply Hwf |].
      intros s. by rewrite Hget.
    - intros [Hinh Hno]. unfold JsObject.get in *.
      destruct (events this !! k) as [[s |] |]; [| done | by rewrite Hinh].
      by destruct (Hno s). }
  split_and!.
  - rewrite <- Hobj, on_returns, addTo_ok. fold k.
    by destruct (JsObject.get (events this) k) as [[s |] |].
  - rewrite <- Hobj. unfold off. fold k.
    by destruct (JsObject.get (events this) k) as [[s |] |].
  - rewrite on_returns, addTo_ok, on_state. fold k. intros Hret.
    split_and!; try done.
    intros name. unfold handlersOf. simpl. rewrite addTo_get.
    destruct (JsObject.get (events this) k) as [[s |] |] eqn:Hget;
      try done.
    case_decide as Hname; [| done]. subst name. by rewrite Hget.
  - unfold off. fold k.
    by destruct (JsObject.get (events this) k) as [[s |] |].
  - rewrite on_returns, addTo_ok. simpl.
    change (getEventName (with_events this _) type None) with k.
    by rewrite get_put_eq.
  - unfold off. simpl.
    change (getEventName (with_events this _) type None) with k.
    by rewrite get_put_eq.
Qed.

Lemma on_off_raise_iff_inherited_unshadowed_witness :
  let this := state (on newEventEmitter "x" 1) in
  let unshadowed :=
    JsObject.inherited "valueOf" = true
    ∧ ∀ s, JsObject.get (events this) "valueOf" ≠ Some (VSet s) in
  (returns (on this "valueOf" 2) = false ↔ unshadowed)
  ∧ (returns (off this "valueOf" 2) = false ↔ unshadowed)
  ∧ (returns (on this "valueOf" 2) = false →
     (∀ name, handlersOf (state (on this "valueOf" 2)) name
              = handlersOf this name)
     ∧ onceCallbacks (state (on this "valueOf" 2)) = onceCallbacks this
     ∧ allEvents (state (on this "valueOf" 2)) = allEvents this)
  ∧ (returns (off this "valueOf" 2) = false →
     state (off this "valueOf" 2) = this)
  ∧ returns (on (state (one this "valueOf" 3)) "valueOf" 2) = true
  ∧ returns (off (state (one this "valueOf" 3)) "valueOf" 2) = true.
Proof.
  apply (on_off_raise_iff_inherited_unshadowed
           (state (on newEventEmitter "x" 1)) "valueOf" 2 3).
  apply (wf_on _ "x" 1), wf_constructor.
Defined.

(** ** [once] *)

(** What [once] leaves when it returns. *)
Lemma once_ReturnThis (this this1 : EventEmitter) (type : string)
    (cb : Handler) :
  once this type cb = ReturnThis this1 →
  let k := getEventName this type None in
  this1
  = with_onceCallbacks
      (with_events this
         (JsObject.put (events this) k
            (VSet (JsSet.add cb (handlersOf this k)))))
      (JsObject.put (onceCallbacks this) k
         (VSet (JsSet.add cb (onceMarked this k)))).
Proof.
  intros Honce k. unfold once, addTo, handlersOf, onceMarked in *.
  fold k in Honce |- *.
  destruct (JsObject.get (events this) k) as [[s |] |];
    simpl in Honce; try done;
    destruct (JsObject.get (onceCallbacks this) k) as [[m |] |];
    simpl in Honce; by inversion Honce.
Qed.

(** X13.  On a well-formed emitter, when [once(type, h)] returns, [h] is
    registered and marked single-shot under the resolved name, keeping
    its place if it was registered already; the other names are
    untouched; and a second [once(type, h)], or an [on(type, h)], returns
    and leaves the emitter exactly as the first [once] left it, so [on]
    does not make a single-shot handler permanent. *)
Theorem once_twice_as_once :
  ∀ (this this1 : EventEmitter) (type : string) (h : Handler),
    wf this →
    once this type h = ReturnThis this1 →
    let k := getEventName this type None in
    handlersOf this1 k = JsSet.add h (handlersOf this k)
    ∧ onceMarked this1 k = JsSet.add h (onceMarked this k)
    ∧ (∀ name, name ≠ k →
         handlersOf this1 name = handlersOf this name
         ∧ onceMarked this1 name = onceMarked this name)
    ∧ allEvents this1 = allEvents this
    ∧ once this1 type h = ReturnThis this1
    ∧ on this1 type h = ReturnThis this1.
Proof.
  intros this this1 type h Hwf Honce k.
  pose proof (once_ReturnThis _ _ _ _ Honce) as Hthis1. fold k in Hthis1.
  assert (JsObject.get (events this1) k
          = Some (VSet (JsSet.add h (handlersOf this k)))) as Hget.
  { rewrite Hthis1. simpl. by rewrite get_put_eq. }
  assert (JsObject.get (onceCallbacks this1) k
          = Some (VSet (JsSet.add h (onceMarked this k)))) as Hgetm.
  { rewrite Hthis1. simpl. by rewrite get_put_eq. }
  assert (getEventName this1 type None = k) as Hk by by rewrite Hthis1.
  assert (∀ s, h ∈ JsSet.add h s) as Hin
    by (intros s; apply elem_of_add; by left).
  assert (with_events this1 (events this1) = this1) as Hid
    by apply with_events_id.
  assert (with_onceCallbacks this1 (onceCallbacks this1) = this1) as Hidm
    by by destruct this1.
  split_and!.
  - unfold handlersOf at 1. by rewrite Hget.
  - unfold onceMarked at 1. by rewrite Hgetm.
  - intros name Hne. rewrite Hthis1. unfold handlersOf, onceMarked. simpl.
    by rewrite !get_put_ne.
  - by rewrite Hthis1.
  - unfold once, addTo. rewrite Hk, Hget. simpl.
    rewrite add_present by done. rewrite put_get_id by done.
    rewrite Hid, Hgetm. simpl.
    rewrite add_present by done. rewrite put_get_id by done.
    by rewrite Hidm.
  - unfold on, addTo. rewrite Hk, Hget. simpl.
    rewrite add_present by done. rewrite put_get_id by done.
    by rewrite Hid.
Qed.

Lemma once_twice_as_once_witness :
  let this := state (on newEventEmitter "x" 1) in
  let this1 := state (once this "x" 1) in
  handlersOf this1 "x" = JsSet.add 1 (handlersOf this "x")
  ∧ onceMarked this1 "x" = JsSet.add 1 (onceMarked this "x")
  ∧ (∀ name, name ≠ "x" →
       handlersOf this1 name = handlersOf this name
       ∧ onceMarked this1 name = onceMarked this name)
  ∧ allEvents this1 = allEvents this
  ∧ once this1 "x" 1 = ReturnThis this1
  ∧ on this1 "x" 1 = ReturnThis this1.
Proof.
  apply (once_twice_as_once (state (on newEventEmitter "x" 1))
           (state (once (state (on newEventEmitter "x" 1)) "x" 1)) "x" 1).
  - apply (wf_on _ "x" 1), wf_constructor.
  - reflexivity.
Defined.

(** X14.  [once] can fail half-way.  On a well-formed emitter, when
    [events] holds a [Set] under a resolved name that is that of a member
    of [Object.prototype] (put there by [one]) and [onceCallbacks] holds
    none, [once(type, h)] raises after having registered [h]: [h] is
    left registered under the name without a single-shot mark. *)
Theorem once_raises_after_registering :
  ∀ (this : EventEmitter) (type : string) (h : Handler) (s : JsSet),
    wf this →
    JsObject.inherited (getEventName this type None) = true →
    JsObject.get (events this) (getEventName this type None)
    = Some (VSet s) →
    (∀ m, JsObject.get (onceCallbacks this) (getEventName this type None)
          ≠ Some (VSet m)) →
    let this1 := state (once this type h) in
    returns (once this type h) = false
    ∧ handlersOf this1 (getEventName this type None) = JsSet.add h s
    ∧ onceMarked this1 (getEventName this type None) = [].
Proof.
  intros this type h s Hwf Hinh Hget Hno this1.
  set (k := getEventName this type None) in *.
  assert (JsObject.get (onceCallbacks this) k = Some VObj) as Hm.
  { unfold JsObject.get in *.
    destruct (onceCallbacks this !! k) as [[m |] |];
      [by destruct (Hno m) | done | by rewrite Hinh]. }
  unfold this1, once, addTo. fold k. rewrite Hget. simpl. rewrite Hm.
  simpl. split_and!; [done | |].
  - unfold handlersOf. simpl. by rewrite get_put_eq.
  - unfold onceMarked. simpl. by rewrite get_put_eq.
Qed.

Lemma once_raises_after_registering_witness :
  let this := state (one newEventEmitter "toString" 1) in
  let this1 := state (once this "toString" 2) in
  returns (once this "toString" 2) = false
  ∧ handlersOf this1 "toString" = JsSet.add 2 [1]
  ∧ onceMarked this1 "toString" = [].
Proof.
  refine (once_raises_after_registering
            (state (one newEventEmitter "toString" 1)) "toString" 2 [1]
            _ eq_refl eq_refl _).
  - apply (wf_one _ "toString" 1); [| apply wf_constructor].
    intros H. discriminate H.
  - intros m H. discriminate H.
Defined.

(** ** What an emission can change *)

(** The callback of the name-scoped pass only takes handlers and marks
    away, and only handlers that carry a mark under the name under
    iteration. *)
Lemma afterCall_only_removes (this : EventEmitter) (type _type : string)
    (cb : Handler) (name : string) (h : Handler) :
  let this' := state (afterCall this type _type cb) in
  (h ∈ handlersOf this' name → h ∈ handlersOf this name)
  ∧ (h ∈ onceMarked this' name → h ∈ onceMarked this name)
  ∧ (h ∈ handlersOf this name → h ∉ onceMarked this _type →
     h ∈ handlersOf this' name).
Proof.
  unfold afterCall. rewrite onceHas_marked.
  case_bool_decide as Hcb; simpl; [| tauto].
  unfold off.
  destruct (JsObject.get (events this) (getEventName this type None))
    as [[s |] |] eqn:Hs; simpl; [| tauto |].
  all: destruct (JsObject.get (onceCallbacks this) _type)
         as [[m |] |] eqn:Hm; simpl.
  all: unfold handlersOf, onceMarked; simpl.
  all: rewrite ?get_put.
  all: repeat case_decide; subst; rewrite ?Hs, ?Hm, ?elem_of_delete.
  all: split_and!; try tauto.
  all: intros Hh Hnot; split; [| done].
  all: intros ->; apply Hnot; unfold onceMarked in Hcb; by rewrite ?Hm in Hcb.
Qed.

(** X15.  An emission never registers anything.  On a well-formed
    emitter, whether [emit(type, arg)] returns or raises, it leaves a
    well-formed emitter with the same [allEvents], prefix and
    [autoPrefix]; under every name the handlers and the single-shot
    marks it leaves were there before; and a handler that carried no
    single-shot mark under the name the emission resolves to stays
    registered under every name it was registered under. *)
Theorem emit_only_removes_single_shot_handlers :
  ∀ {Payload : Type} (this : EventEmitter) (type : string) (arg : Payload),
    wf this →
    let this' := state (outcome (emit this type arg)) in
    wf this'
    ∧ sameConfig this this'
    ∧ ∀ name h,
        (h ∈ handlersOf this' name → h ∈ handlersOf this name)
        ∧ (h ∈ onceMarked this' name → h ∈ onceMarked this name)
        ∧ (h ∈ handlersOf this name →
           h ∉ onceMarked this (getEventName this type (Some true)) →
           h ∈ handlersOf this' name).
Proof.
  intros Payload this type arg Hwf this'.
  split; [by apply wf_emit |].
  set (k := getEventName this type (Some true)).
  apply (emit_invariant
           (λ st, sameConfig this st
                  ∧ ∀ name h,
                      (h ∈ handlersOf st name → h ∈ handlersOf this name)
                      ∧ (h ∈ onceMarked st name → h ∈ onceMarked this name)
                      ∧ (h ∈ handlersOf this name →
                         h ∉ onceMarked this k →
                         h ∈ handlersOf st name))).
  - intros st cb [Hcfg Hst]. split.
    + eapply sameConfig_trans; [done | apply afterCall_sameConfig].
    + intros name h.
      rewrite (getEventName_sameConfig this st) by done. fold k.
      destruct (Hst name h) as (H1 & H2 & H3).
      destruct (Hst k h) as (_ & H2k & _).
      pose proof (afterCall_only_removes st type k cb name h) as Hstep.
      simpl in Hstep. destruct Hstep as (S1 & S2 & S3).
      split_and!; [tauto | tauto |].
      intros Hh Hnot. apply S3; [by apply H3 |].
      intros Hin. by apply Hnot, H2k.
  - by intros st [Hcfg _].
  - split; [by repeat split | intros name h; tauto].
Qed.

Lemma emit_only_removes_single_shot_handlers_witness :
  let this := state (once (state (on newEventEmitter "x" 1)) "x" 2) in
  let this' := state (outcome (emit this "x" 7)) in
  wf this'
  ∧ sameConfig this this'
  ∧ ∀ name h,
      (h ∈ handlersOf this' name → h ∈ handlersOf this name)
      ∧ (h ∈ onceMarked this' name → h ∈ onceMarked this name)
      ∧ (h ∈ handlersOf this name →
         h ∉ onceMarked this (getEventName this "x" (Some true)) →
         h ∈ handlersOf this' name).
Proof.
  apply (emit_only_removes_single_shot_handlers
           (state (once (state (on newEventEmitter "x" 1)) "x" 2)) "x" 7).
  apply (wf_once _ "x" 2), (wf_on _ "x" 1), wf_constructor.
Defined.

(** ** Emitters reached from the constructor *)

Lemma run_config {Payload : Type} (ops : list (Op Payload))
    (this : EventEmitter) :
  eventsPrefix (run ops this) = eventsPrefix this
  ∧ autoPrefix (run ops this) = autoPrefix this.
Proof.
  revert this. induction ops as [| op ops IH]; intros this; [done |].
  simpl. destruct (IH (state (step this op))) as [Hp Ha].
  destruct (step_config this op) as [Hp' Ha'].
  unfold run in *. split; congruence.
Qed.

Lemma NoDup_handlersOf (this : EventEmitter) (name : string) :
  wf this → NoDup (handlersOf this name).
Proof.
  intros [_ He _]. unfold handlersOf.
  destruct (JsObject.get (events this) name) as [[s |] |] eqn:Hget;
    [| apply NoDup_nil_2 ..].
  by apply (wf_get_NoDup _ _ _ He Hget).
Qed.

(** X16.  Every emitter reached from [new EventEmitter(prefix, auto)] by
    a sequence of calls of the seven methods, going on after calls that
    raise, is well formed, provided no [one] is called with a name that
    resolves to [__proto__]: it keeps the prefix and [autoPrefix] given
    to the constructor, no handler is registered twice under a name or
    twice as a universal handler, and no single-shot mark is held twice
    under a name. *)
Theorem emitters_from_constructor_well_formed :
  ∀ {Payload : Type} (prefix : string) (auto : bool)
    (ops : list (Op Payload)),
    Forall (λ op, ∀ type cb, op = RegisterExclusive type cb →
                    getEventName (constructor prefix auto) type None
                    ≠ "__proto__"%string) ops →
    let this := run ops (constructor prefix auto) in
    wf this
    ∧ eventsPrefix this = prefix
    ∧ autoPrefix this = auto
    ∧ NoDup (allEvents this)
    ∧ ∀ name, NoDup (handlersOf this name) ∧ NoDup (onceMarked this name).
Proof.
  intros Payload prefix auto ops Hops this.
  assert (wf this) as Hwf by (apply wf_run; [done | apply wf_constructor]).
  destruct (run_config ops (constructor prefix auto)) as [Hp Ha].
  split_and!; [done | done | done | by destruct Hwf |].
  intros name. split; [by apply NoDup_handlersOf |].
  destruct Hwf as [_ _ Ho]. unfold onceMarked.
  destruct (JsObject.get (onceCallbacks this) name) as [[s |] |] eqn:Hget;
    [| apply NoDup_nil_2 ..].
  by apply (wf_get_NoDup _ _ _ Ho Hget).
Qed.

Lemma emitters_from_constructor_well_formed_witness :
  let ops :=
    [ Register "x"%string 1; RegisterOnce "x"%string 1;
      RegisterExclusive "y"%string 2; RegisterUniversal 1;
      Emit "toString"%string 7; Emit "x"%string 7;
      Unregister "y"%string 2 ] in
  let this := run ops (constructor "ns"%string false) in
  wf this
  ∧ eventsPrefix this = "ns"%string
  ∧ autoPrefix this = false
  ∧ NoDup (allEvents this)
  ∧ ∀ name, NoDup (handlersOf this name) ∧ NoDup (onceMarked this name).
Proof.
  apply (emitters_from_constructor_well_formed "ns"%string false
           [ Register "x"%string 1; RegisterOnce "x"%string 1;
             RegisterExclusive "y"%string 2; RegisterUniversal 1;
             Emit "toString"%string 7; Emit "x"%string 7;
             Unregister "y"%string 2 ]).
  repeat (apply Forall_cons; split; [intros type cb Heq; try discriminate Heq |]).
  - injection Heq as <- <-. intros H. discriminate H.
  - apply Forall_nil_2.
Defined.
